(** * BareEmitter: a shallow embedding of the event emitter and its listeners

    The class [BareEmitter] keeps one private field, [events], a plain
    JavaScript object used as a dictionary from event names to arrays of
    listeners, and offers [on], [off], [once] and [emit].

    Listeners are functions supplied by client code; they are compared by
    reference, may call back into the emitter while an [emit] is running,
    and may throw.  The embedding therefore has three layers:

    - the registry and the four methods, written as state transformers;
    - listener handles: client functions (identified by a number) and the
      closures allocated by [once];
    - client code: finite interaction trees over the emitter's methods,
      run by an interpreter whose fuel bounds the depth of the call stack. *)

From stdpp Require Import base option list strings gmap.

(** ** Listener handles

    [type Listener = (...args: any[]) => void].  A handle is either a
    function written by client code or the arrow function [onceWrapper]
    created by one call of [once]; the latter carries what the closure
    captured ([eventName], [listener]) and the number of the allocation
    that created it, which is its identity. *)
Inductive handle : Type :=
| User (f : nat)
| OnceWrapper (id : nat) (eventName : string) (listener : handle).

Global Instance handle_eq_dec : EqDecision handle.
Proof. solve_decision. Defined.

(** ** What [this.events[eventName]] can evaluate to

    [events] is initialised with the object literal [{}], so a property
    read that finds no own property continues in [Object.prototype]. *)
Inductive proto_member : Type :=
| PFunction (length : nat)
| PObject.

Definition Object_prototype : list (string * proto_member) :=
  [ ("constructor"%string, PFunction 1);
    ("hasOwnProperty"%string, PFunction 1);
    ("isPrototypeOf"%string, PFunction 1);
    ("propertyIsEnumerable"%string, PFunction 1);
    ("toLocaleString"%string, PFunction 0);
    ("toString"%string, PFunction 0);
    ("valueOf"%string, PFunction 0);
    ("__defineGetter__"%string, PFunction 2);
    ("__defineSetter__"%string, PFunction 2);
    ("__lookupGetter__"%string, PFunction 1);
    ("__lookupSetter__"%string, PFunction 1);
    ("__proto__"%string, PObject) ].

Fixpoint assoc (table : list (string * proto_member)) (name : string)
  : option proto_member :=
  match table with
  | [] => None
  | (k, v) :: rest => if decide (k = name) then Some v else assoc rest name
  end.

Definition inherited (name : string) : option proto_member :=
  assoc Object_prototype name.

Inductive slot : Type :=
| Absent
| Own (listeners : list handle)
| Inherited (p : proto_member).

Definition get (events : gmap string (list handle)) (eventName : string) : slot :=
  match events !! eventName with
  | Some ls => Own ls
  | None =>
    match inherited eventName with
    | Some p => Inherited p
    | None => Absent
    end
  end.

(** [!x] *)
Definition falsy (x : slot) : bool :=
  match x with Absent => true | _ => false end.

(** [x.length === 0] *)
Definition length_is_zero (x : slot) : bool :=
  match x with
  | Own ls => bool_decide (length ls = 0)
  | Inherited (PFunction n) => bool_decide (n = 0)
  | _ => false
  end.

(** The listeners registered for a name: the own array, if there is one. *)
Definition listeners_of (events : gmap string (list handle)) (eventName : string)
  : list handle :=
  match events !! eventName with Some ls => ls | None => [] end.

Section Emitter.
(** [any]: the values passed to [emit]. *)
Variable value : Type.
(** Whatever state client code keeps for itself. *)
Variable store : Type.

Inductive exn : Type :=
| TypeError
| Thrown (v : value).

(** *** Client code *)
Inductive call : Type :=
| CallOn (eventName : string) (f : nat)
| CallOff (eventName : string) (f : option nat)
| CallOnce (eventName : string) (f : nat)
| CallEmit (eventName : string) (args : list value).

(** What a call gives back to the code that made it: the value returned
    ([None] for [void]) or the exception it threw, which the caller may
    catch or throw again. *)
Inductive reply : Type :=
| Returned (b : option bool)
| Threw (x : exn).

Inductive prog : Type :=
| Return
| Raise (x : exn)
| Get (k : store → prog)
| Put (s : store) (k : prog)
| Do (c : call) (k : reply → prog).

(** *** Machine state *)
Record entry : Type := Entry {
  depth : nat;
  callee : handle;
  arguments : list value
}.

Record world : Type := World {
  events : gmap string (list handle);
  next_id : nat;
  client : store;
  log : list entry
}.

Definition set_events (ev : gmap string (list handle)) (w : world) : world :=
  World ev (next_id w) (client w) (log w).
Definition set_next_id (n : nat) (w : world) : world :=
  World (events w) n (client w) (log w).
Definition set_client (s : store) (w : world) : world :=
  World (events w) (next_id w) s (log w).
Definition record (en : entry) (w : world) : world :=
  World (events w) (next_id w) (client w) (log w ++ [en]).

(** [new BareEmitter()] *)
Definition new_emitter (s : store) : world := World ∅ 0 s [].

Inductive outcome (A : Type) : Type :=
| Done (a : A) (w : world)
| Failed (x : exn) (w : world)
| OutOfFuel.
Arguments Done {A} a w.
Arguments Failed {A} x w.
Arguments OutOfFuel {A}.

Definition M (A : Type) : Type := world → outcome A.

Definition ret {A} (a : A) : M A := λ w, Done a w.
Definition throw {A} (x : exn) : M A := λ w, Failed x w.
Definition bind {A B} (m : M A) (k : A → M B) : M B := λ w,
  match m w with
  | Done a w' => k a w'
  | Failed x w' => Failed x w'
  | OutOfFuel => OutOfFuel
  end.

Notation "m ;; k" := (bind m (λ _, k)) (at level 100, right associativity).

Definition final {A} (r : outcome A) : option world :=
  match r with
  | Done _ w => Some w
  | Failed _ w => Some w
  | OutOfFuel => None
  end.

(** *** The four methods *)

Definition on (eventName : string) (listener : handle) : M unit := λ w,
  (* if (!this.events[eventName]) this.events[eventName] = []; *)
  let w1 :=
    if falsy (get (events w) eventName)
    then set_events (<[eventName := []]> (events w)) w
    else w in
  (* this.events[eventName].push(listener); -- only arrays have [push] *)
  match get (events w1) eventName with
  | Own ls => Done tt (set_events (<[eventName := ls ++ [listener]]> (events w1)) w1)
  | _ => Failed TypeError w1
  end.

Definition off (eventName : string) (listener : option handle) : M unit := λ w,
  (* if (!this.events[eventName]) return; *)
  if falsy (get (events w) eventName) then Done tt w
  else
    (* if (listener) -- a function is truthy, an omitted argument is not *)
    match listener with
    | Some l =>
      (* this.events[eventName] = this.events[eventName].filter(fn => fn !== listener);
         -- only arrays have [filter] *)
      match get (events w) eventName with
      | Own ls =>
        Done tt (set_events (<[eventName := filter (λ fn, fn ≠ l) ls]> (events w)) w)
      | _ => Failed TypeError w
      end
    | None =>
      (* delete this.events[eventName]; -- own properties only *)
      Done tt (set_events (delete eventName (events w)) w)
    end.

(** [once] allocates the closure [onceWrapper] and registers it with
    [on]; what the closure does when called is in [invoke] below. *)
Definition once (eventName : string) (listener : handle) : M unit := λ w,
  let onceWrapper := OnceWrapper (next_id w) eventName listener in
  on eventName onceWrapper (set_next_id (S (next_id w)) w).

Fixpoint forEach (callback : handle → M unit) (array : list handle) : M unit :=
  match array with
  | [] => ret tt
  | fn :: rest => callback fn ;; forEach callback rest
  end.

(** [emit], abstracted over what calling a listener does. *)
Definition emit (apply : handle → list value → M unit)
    (eventName : string) (args : list value) : M bool := λ w,
  (* const listeners = this.events[eventName]; *)
  let listeners := get (events w) eventName in
  (* if (!listeners || listeners.length === 0) return false; *)
  if falsy listeners || length_is_zero listeners then Done false w
  else
    (* [...listeners].forEach(fn => fn(...args)); return true;
       -- the copy [ls] is what is iterated; only arrays can be spread *)
    match listeners with
    | Own ls => (forEach (λ fn, apply fn args) ls ;; ret true) w
    | _ => Failed TypeError w
    end.

(** *** Running listeners *)

Definition perform (apply : handle → list value → M unit) (c : call)
  : M (option bool) :=
  match c with
  | CallOn e f => bind (on e (User f)) (λ _, ret None)
  | CallOff e f => bind (off e (User <$> f)) (λ _, ret None)
  | CallOnce e f => bind (once e (User f)) (λ _, ret None)
  | CallEmit e args => bind (emit apply e args) (λ b, ret (Some b))
  end.

Fixpoint run (apply : handle → list value → M unit) (p : prog) : M unit :=
  match p with
  | Return => ret tt
  | Raise x => throw x
  | Get k => λ w, run apply (k (client w)) w
  | Put s k => λ w, run apply k (set_client s w)
  | Do c k => λ w,
    match perform apply c w with
    | Done r w' => run apply (k (Returned r)) w'
    | Failed x w' => run apply (k (Threw x)) w'
    | OutOfFuel => OutOfFuel
    end
  end.

(** The code of the client's functions. *)
Variable body : nat → list value → prog.

(** [invoke fuel d h args]: the call [h(...args)] made with [d] listener
    activations already on the stack and room for [fuel] more.  The call
    is entered in the log; then a client function runs its code, and an
    adapter runs [listener(...args); this.off(eventName, onceWrapper);].
    Listeners called by an [emit] issued from inside run one level
    deeper. *)
Fixpoint invoke (fuel : nat) (d : nat) (h : handle) (args : list value) : M unit :=
  match fuel with
  | 0 => λ _, OutOfFuel
  | S fuel' =>
    λ w,
    let w0 := record (Entry d h args) w in
    match h with
    | User f => run (invoke fuel' (S d)) (body f args) w0
    | OnceWrapper _ eventName listener =>
      (invoke fuel' (S d) listener args ;; off eventName (Some h)) w0
    end
  end.

(** [emitter.emit(eventName, ...args)] called from outside any listener. *)
Definition emit_call (fuel : nat) (eventName : string) (args : list value) : M bool :=
  emit (invoke fuel 0) eventName args.

End Emitter.

Arguments TypeError {value}.
Arguments Thrown {value} v.
Arguments CallOn {value} eventName f.
Arguments CallOff {value} eventName f.
Arguments CallOnce {value} eventName f.
Arguments CallEmit {value} eventName args.
Arguments Returned {value} b.
Arguments Threw {value} x.
Arguments Return {value store}.
Arguments Raise {value store} x.
Arguments Get {value store} k.
Arguments Put {value store} s k.
Arguments Do {value store} c k.
Arguments Entry {value} depth callee arguments.
Arguments depth {value} e.
Arguments callee {value} e.
Arguments arguments {value} e.
Arguments World {value store} events next_id client log.
Arguments events {value store} w.
Arguments next_id {value store} w.
Arguments client {value store} w.
Arguments log {value store} w.
Arguments set_events {value store} ev w.
Arguments set_next_id {value store} n w.
Arguments set_client {value store} s w.
Arguments record {value store} en w.
Arguments new_emitter {value store} s.
Arguments Done {value store A} a w.
Arguments Failed {value store A} x w.
Arguments OutOfFuel {value store A}.
Arguments ret {value store A} a w.
Arguments throw {value store A} x w.
Arguments bind {value store A B} m k w.
Arguments final {value store A} r.
Arguments on {value store} eventName listener w.
Arguments off {value store} eventName listener w.
Arguments once {value store} eventName listener w.
Arguments forEach {value store} callback array w.
Arguments emit {value store} apply eventName args w.
Arguments perform {value store} apply c w.
Arguments run {value store} apply p w.
Arguments invoke {value store} body fuel d h args w.
Arguments emit_call {value store} body fuel eventName args w.

(** ** Reading the log *)

(** The entries written between two states of one run. *)
Definition new_entries {value store} (w w' : world value store) : list (entry value) :=
  drop (length (log w)) (log w').

(** The calls made with exactly [d] listener activations on the stack. *)
Definition calls_at {value} (d : nat) (l : list (entry value)) : list (entry value) :=
  filter (λ en, depth en = d) l.

(** [w'] continues the log of [w] with calls at depth [d] or deeper. *)
Definition extends {value store} (d : nat) (w w' : world value store) : Prop :=
  ∃ new, log w' = log w ++ new ∧ Forall (λ en, d ≤ depth en) new.

(** Calling a listener through [apply] only adds calls at depth [d] or
    deeper to the log. *)
Definition logs_from {value store} (d : nat)
    (apply : handle → list value → M value store unit) : Prop :=
  ∀ h args w w', final (apply h args w) = Some w' → extends d w w'.

(** ** Predicates on client code and on registries *)


(** Code that never calls the emitter and returns normally. *)
Inductive plain {value store} : prog value store → Prop :=
| plain_Return : plain Return
| plain_Get k : (∀ s, plain (k s)) → plain (Get k)
| plain_Put s k : plain k → plain (Put s k).

(** A handle that client code can have put under [eventName]: one of its
    own functions, or the wrapper [once] made for one of them and for
    that name. *)
Definition registered_for (eventName : string) (h : handle) : Prop :=
  match h with
  | User _ => True
  | OnceWrapper _ e l => e = eventName ∧ ∃ f, l = User f
  end.

Definition well_formed (ev : gmap string (list handle)) : Prop :=
  ∀ e ls, ev !! e = Some ls → Forall (registered_for e) ls.

(** Calling a listener through [apply] keeps the registry well formed. *)
Definition keeps_well_formed {value store}
    (apply : handle → list value → M value store unit) : Prop :=
  ∀ h args w w',
    well_formed (events w) → final (apply h args w) = Some w' → well_formed (events w').

(** [apply'] agrees with [apply] wherever [apply] has stack enough. *)
Definition refines {value store}
    (apply apply' : handle → list value → M value store unit) : Prop :=
  ∀ h args w, apply h args w ≠ OutOfFuel → apply' h args w = apply h args w.

(** The invariant the data model asks for. *)
Definition no_empty_entry (ev : gmap string (list handle)) : Prop :=
  ∀ e ls, ev !! e = Some ls → ls ≠ [].

(** ** Further predicates, for the properties beyond the claims *)

(** Client functions, as opposed to the adapters made by [once]. *)
Definition is_user (h : handle) : bool :=
  match h with User _ => true | OnceWrapper _ _ _ => false end.


(** No own key of the registry hides a member of [Object.prototype]. *)
Definition clean (ev : gmap string (list handle)) : Prop :=
  ∀ e p, inherited e = Some p → ev !! e = None.

(** Calling a listener through [apply] keeps the property [P] of the
    registry. *)
Definition keeps {value store} (P : gmap string (list handle) → Prop)
    (apply : handle → list value → M value store unit) : Prop :=
  ∀ h args w w', P (events w) → final (apply h args w) = Some w' → P (events w').

(** ** Concrete clients

    Values are integers, the client keeps no state of its own. *)
Module Scenario.

Definition rethrow (k : prog Z unit) (r : reply Z) : prog Z unit :=
  match r with
  | Returned _ => k
  | Threw x => Raise x
  end.

(** Functions that do nothing. *)
Definition idle (f : nat) (args : list Z) : prog Z unit := Return.

(** Function 0 registers function 1 and removes function 2, both under
    ["e"]; the others do nothing. *)
Definition meddling (f : nat) (args : list Z) : prog Z unit :=
  match f with
  | 0 => Do (CallOn "e" 1) (rethrow (Do (CallOff "e" (Some 2)) (rethrow Return)))
  | _ => Return
  end.

(** Function 0, when called with [1], emits ["e"] again with [0]. *)
Definition reentrant (f : nat) (args : list Z) : prog Z unit :=
  match f, args with
  | 0, [1%Z] => Do (CallEmit "e" [0%Z]) (rethrow Return)
  | _, _ => Return
  end.

(** Function 1 throws the number 7; the others do nothing. *)
Definition failing (f : nat) (args : list Z) : prog Z unit :=
  match f with
  | 1 => Raise (Thrown 7%Z)
  | _ => Return
  end.

Definition fresh : world Z unit := new_emitter tt.

(** After [on('x', f0); on('x', f1)]. *)
Definition two_on_x : world Z unit :=
  World {[ "x"%string := [User 0; User 1] ]} 0 tt [].

(** After [on('e', f0); on('e', f2)]. *)
Definition two_on_e : world Z unit :=
  World {[ "e"%string := [User 0; User 2] ]} 0 tt [].

(** After [on('x', f0); on('x', f1); on('x', f2)]. *)
Definition three_on_x : world Z unit :=
  World {[ "x"%string := [User 0; User 1; User 2] ]} 0 tt [].

(** After [on('z', f0)]. *)
Definition one_on_z : world Z unit :=
  World {[ "z"%string := [User 0] ]} 0 tt [].

(** After [once('e', f0)]. *)
Definition once_on_e : world Z unit :=
  World {[ "e"%string := [OnceWrapper 0 "e" (User 0)] ]} 1 tt [].

(** After [on('a', f0); once('a', f1); on('b', f2)]. *)
Definition a_and_b : world Z unit :=
  World {[ "a"%string := [User 0; OnceWrapper 0 "a" (User 1)];
           "b"%string := [User 2] ]} 1 tt [].

(** [two_on_e] after [emit('e')] with the [meddling] functions. *)
Definition meddled : world Z unit :=
  World {[ "e"%string := [User 0; User 1] ]} 0 tt
        [Entry 0 (User 0) []; Entry 0 (User 2) []].

(** [three_on_x] while [emit('x', 1)] runs with the [failing] functions:
    after the first listener, and after the second. *)
Definition first_called : world Z unit :=
  World {[ "x"%string := [User 0; User 1; User 2] ]} 0 tt
        [Entry 0 (User 0) [1%Z]].
Definition second_threw : world Z unit :=
  World {[ "x"%string := [User 0; User 1; User 2] ]} 0 tt
        [Entry 0 (User 0) [1%Z]; Entry 0 (User 1) [1%Z]].

(** After [on('z', f0); once('z', f0)]. *)
Definition on_and_once_z : world Z unit :=
  World {[ "z"%string := [User 0; OnceWrapper 0 "z" (User 0)] ]} 1 tt [].

(** After [on('z', f0); off('z', f0)]. *)
Definition emptied_z : world Z unit :=
  World {[ "z"%string := [] ]} 0 tt [].

(** [once_on_e] after [emit('e', 1)] with the [reentrant] functions. *)
Definition fired_twice : world Z unit :=
  World {[ "e"%string := [] ]} 1 tt
        [Entry 0 (OnceWrapper 0 "e" (User 0)) [1%Z]; Entry 1 (User 0) [1%Z];
         Entry 2 (OnceWrapper 0 "e" (User 0)) [0%Z]; Entry 3 (User 0) [0%Z]].


(** After [on('m', f0); once('m', f1); on('m', f2); once('m', f0)]. *)
Definition mixed_on_m : world Z unit :=
  World {[ "m"%string := [User 0; OnceWrapper 0 "m" (User 1); User 2;
                          OnceWrapper 1 "m" (User 0)] ]} 2 tt [].

(** After [on('x', f0); on('x', f1); on('x', f0)]. *)
Definition f0_twice_on_x : world Z unit :=
  World {[ "x"%string := [User 0; User 1; User 0] ]} 0 tt [].

End Scenario.

(** * Facts about the registry and the four methods *)

Section MethodFacts.
Context {value store : Type}.
Implicit Types (w : world value store) (ev : gmap string (list handle)).
Implicit Types (e : string) (h : handle) (ls : list handle).

Lemma get_own ev e ls : ev !! e = Some ls → get ev e = Own ls.
Proof. intros H. unfold get. by rewrite H. Qed.

Lemma get_absent ev e :
  ev !! e = None → inherited e = None → get ev e = Absent.
Proof. intros H1 H2. unfold get. by rewrite H1, H2. Qed.

Lemma get_inherited ev e p :
  ev !! e = None → inherited e = Some p → get ev e = Inherited p.
Proof. intros H1 H2. unfold get. by rewrite H1, H2. Qed.

Lemma listeners_of_Some ev e ls : ev !! e = Some ls → listeners_of ev e = ls.
Proof. intros H. unfold listeners_of. by rewrite H. Qed.

Lemma listeners_of_insert ev e ls : listeners_of (<[e := ls]> ev) e = ls.
Proof. unfold listeners_of. by rewrite lookup_insert_eq. Qed.

Lemma listeners_of_insert_ne ev e e' ls :
  e ≠ e' → listeners_of (<[e := ls]> ev) e' = listeners_of ev e'.
Proof. intros H. unfold listeners_of. by rewrite lookup_insert_ne. Qed.

Lemma listeners_of_delete ev e : listeners_of (delete e ev) e = [].
Proof. unfold listeners_of. by rewrite lookup_delete_eq. Qed.

(** [on] under a name that [Object.prototype] does not define: the
    handle goes to the end of the name's array, created if absent. *)
Lemma on_ordinary e h w :
  inherited e = None →
  on e h w =
  Done tt (set_events (<[e := listeners_of (events w) e ++ [h]]> (events w)) w).
Proof.
  intros Hin. unfold on, get, listeners_of.
  destruct (events w !! e) as [ls|] eqn:Hl; simpl.
  - by rewrite Hl.
  - rewrite Hin. simpl. rewrite lookup_insert_eq.
    unfold set_events. simpl. by rewrite insert_insert_eq.
Qed.

(** [on] under a name that is present as an own property. *)
Lemma on_own e h w ls :
  events w !! e = Some ls →
  on e h w = Done tt (set_events (<[e := ls ++ [h]]> (events w)) w).
Proof. intros Hl. unfold on, get. rewrite Hl. simpl. by rewrite Hl. Qed.

(** [on] under an inherited name fails and changes nothing. *)
Lemma on_inherited e h w p :
  events w !! e = None → inherited e = Some p →
  on e h w = Failed TypeError w.
Proof.
  intros Hl Hin. unfold on. rewrite (get_inherited _ _ _ Hl Hin). simpl.
  by rewrite (get_inherited _ _ _ Hl Hin).
Qed.

Lemma off_absent e o w :
  events w !! e = None → inherited e = None → off e o w = Done tt w.
Proof. intros Hl Hin. unfold off. by rewrite (get_absent _ _ Hl Hin). Qed.

Lemma off_all e w :
  inherited e = None →
  off e None w = Done tt (set_events (delete e (events w)) w).
Proof.
  intros Hin. unfold off, get.
  destruct (events w !! e) as [ls|] eqn:Hl; simpl; [done|].
  rewrite Hin. simpl. unfold set_events.
  rewrite delete_id by done. by destruct w.
Qed.

Lemma off_listener_own e l w ls :
  events w !! e = Some ls →
  off e (Some l) w =
  Done tt (set_events (<[e := filter (λ fn, fn ≠ l) ls]> (events w)) w).
Proof. intros Hl. unfold off. by rewrite (get_own _ _ _ Hl). Qed.

Lemma off_listener_inherited e l w p :
  events w !! e = None → inherited e = Some p →
  off e (Some l) w = Failed TypeError w.
Proof. intros Hl Hin. unfold off. by rewrite (get_inherited _ _ _ Hl Hin). Qed.

Lemma once_unfold e l w :
  once e l w = on e (OnceWrapper (next_id w) e l) (set_next_id (S (next_id w)) w).
Proof. done. Qed.

(** None of [on], [off], [once] calls a listener: the log stays as it is. *)
Lemma on_log e h w w' : final (on e h w) = Some w' → log w' = log w.
Proof.
  unfold on. destruct (falsy _); simpl;
    destruct (get _ e); simpl; intros; by simplify_eq.
Qed.

Lemma off_log e o w w' : final (off e o w) = Some w' → log w' = log w.
Proof.
  unfold off. destruct (falsy _); simpl; [intros; by simplify_eq|].
  destruct o; [destruct (get _ e)|]; simpl; intros; by simplify_eq.
Qed.

Lemma once_log e l w w' : final (once e l w) = Some w' → log w' = log w.
Proof. rewrite once_unfold. intros H. by apply on_log in H. Qed.

Lemma on_total e h w : final (on e h w) ≠ None.
Proof. unfold on. destruct (falsy _); simpl; by destruct (get _ e). Qed.


Lemma once_total e l w : final (once e l w) ≠ None.
Proof. rewrite once_unfold. apply on_total. Qed.

(** What the three registering methods leave under another name. *)
Lemma on_frame e e' h w w' :
  e ≠ e' → final (on e h w) = Some w' → events w' !! e' = events w !! e'.
Proof.
  intros Hne. unfold on. destruct (falsy _); simpl;
    destruct (get _ e); simpl; intros; simplify_eq; simpl;
    by rewrite ?lookup_insert_ne.
Qed.

Lemma off_frame e e' o w w' :
  e ≠ e' → final (off e o w) = Some w' → events w' !! e' = events w !! e'.
Proof.
  intros Hne. unfold off. destruct (falsy _); simpl; [intros; by simplify_eq|].
  destruct o; [destruct (get _ e)|]; simpl; intros; simplify_eq; simpl;
    by rewrite ?lookup_insert_ne, ?lookup_delete_ne.
Qed.


(** [emit] when the name has no own array and is not inherited, or has
    an empty own array: [false], nothing called, nothing changed. *)
Lemma emit_no_listeners (apply : handle → list value → M value store unit) e args w :
  inherited e = None → listeners_of (events w) e = [] →
  emit apply e args w = Done false w.
Proof.
  intros Hin Hl. unfold emit, get. unfold listeners_of in Hl.
  destruct (events w !! e) as [ls|]; simpl.
  - by subst ls.
  - by rewrite Hin.
Qed.

Lemma emit_own (apply : handle → list value → M value store unit) e args w ls :
  events w !! e = Some ls → ls ≠ [] →
  emit apply e args w = bind (forEach (λ fn, apply fn args) ls) (λ _, ret true) w.
Proof.
  intros Hl Hne. unfold emit. rewrite (get_own _ _ _ Hl). simpl.
  destruct ls; [done|]. done.
Qed.

End MethodFacts.

(** * Facts about the log *)

Section LogFacts.
Context {value store : Type}.
Implicit Types (w : world value store) (l new : list (entry value)).

Lemma extends_refl d w : extends d w w.
Proof. exists []. by rewrite app_nil_r. Qed.

Lemma extends_same_log d w w' : log w' = log w → extends d w w'.
Proof. intros H. exists []. by rewrite app_nil_r. Qed.

Lemma extends_trans d w1 w2 w3 :
  extends d w1 w2 → extends d w2 w3 → extends d w1 w3.
Proof.
  intros (n1 & H1 & F1) (n2 & H2 & F2). exists (n1 ++ n2). split.
  - by rewrite H2, H1, app_assoc.
  - by apply Forall_app.
Qed.

Lemma extends_weaken d d' w w' : d ≤ d' → extends d' w w' → extends d w w'.
Proof.
  intros Hle (n & H & F). exists n. split; [done|].
  eapply Forall_impl; [exact F|]. simpl. intros; lia.
Qed.

Lemma new_entries_app w w' new : log w' = log w ++ new → new_entries w w' = new.
Proof. intros H. unfold new_entries. rewrite H. by rewrite drop_app_length. Qed.

Lemma new_entries_refl w : new_entries w w = [].
Proof. apply new_entries_app. by rewrite app_nil_r. Qed.

Lemma extends_log d w w' : extends d w w' → log w' = log w ++ new_entries w w'.
Proof. intros (n & H & _). by rewrite (new_entries_app _ _ _ H). Qed.

Lemma extends_deep d w w' :
  extends d w w' → Forall (λ en, d ≤ depth en) (new_entries w w').
Proof. intros (n & H & F). by rewrite (new_entries_app _ _ _ H). Qed.

Lemma new_entries_trans d w1 w2 w3 :
  extends d w1 w2 → extends d w2 w3 →
  new_entries w1 w3 = new_entries w1 w2 ++ new_entries w2 w3.
Proof.
  intros E1 E2. apply new_entries_app.
  rewrite (extends_log _ _ _ E2), (extends_log _ _ _ E1). by rewrite app_assoc.
Qed.

Lemma calls_at_app d l1 l2 : calls_at d (l1 ++ l2) = calls_at d l1 ++ calls_at d l2.
Proof. apply filter_app. Qed.

Lemma calls_at_deeper d l : Forall (λ en, S d ≤ depth en) l → calls_at d l = [].
Proof.
  induction 1 as [|en l Hen _ IH]; [done|].
  unfold calls_at in *. rewrite filter_cons_False by lia. exact IH.
Qed.

Lemma calls_at_cons_here d h (args : list value) l :
  calls_at d (Entry d h args :: l) = Entry d h args :: calls_at d l.
Proof. unfold calls_at. by rewrite filter_cons_True. Qed.

Lemma elem_of_calls_at d en l : en ∈ calls_at d l → en ∈ l.
Proof. unfold calls_at. rewrite list_elem_of_filter. tauto. Qed.

End LogFacts.

(** * Facts about running listeners *)

Section RunFacts.
Context {value store : Type}.
Variable body : nat → list value → prog value store.
Implicit Types (w : world value store) (h : handle) (ls : list handle).
Implicit Types (apply : handle → list value → M value store unit).

Lemma bind_final {A B} (m : M value store A) (k : A → M value store B) w w' :
  final (bind m k w) = Some w' →
  (∃ a w1, m w = Done a w1 ∧ final (k a w1) = Some w') ∨ (∃ x, m w = Failed x w').
Proof.
  unfold bind. destruct (m w) as [a w1|x w1|] eqn:Hm; simpl; intros H.
  - left. eauto.
  - right. simplify_eq. eauto.
  - done.
Qed.

Lemma forEach_extends d apply args ls w w' :
  logs_from d apply →
  final (forEach (λ fn, apply fn args) ls w) = Some w' → extends d w w'.
Proof.
  intros Happly. revert w. induction ls as [|fn rest IH]; simpl; intros w H.
  - simplify_eq. apply extends_refl.
  - apply bind_final in H as [(a & w1 & Hm & Hk)|(x & Hm)].
    + eapply extends_trans; [|by apply IH]. apply (Happly fn args). by rewrite Hm.
    + apply (Happly fn args). by rewrite Hm.
Qed.

Lemma emit_extends d apply e args w w' :
  logs_from d apply → final (emit apply e args w) = Some w' → extends d w w'.
Proof.
  intros Happly. unfold emit.
  destruct (falsy _ || length_is_zero _); simpl.
  { intros; simplify_eq. apply extends_refl. }
  destruct (get _ e) as [|ls|p]; simpl; try (intros; simplify_eq; apply extends_refl).
  intros H. apply bind_final in H as [(a & w1 & Hm & Hk)|(x & Hm)].
  - simpl in Hk. simplify_eq. eapply forEach_extends; [done|]. by rewrite Hm.
  - eapply forEach_extends; [done|]. by rewrite Hm.
Qed.

Lemma perform_extends d apply c w w' :
  logs_from d apply → final (perform apply c w) = Some w' → extends d w w'.
Proof.
  intros Happly. destruct c as [e f|e f|e f|e a]; simpl; intros H;
    apply bind_final in H as [(r & w1 & Hm & Hk)|(x & Hm)]; simpl in *; simplify_eq.
  - apply extends_same_log. apply (on_log e (User f)). by rewrite Hm.
  - apply extends_same_log. apply (on_log e (User f)). by rewrite Hm.
  - apply extends_same_log. apply (off_log e (User <$> f)). by rewrite Hm.
  - apply extends_same_log. apply (off_log e (User <$> f)). by rewrite Hm.
  - apply extends_same_log. apply (once_log e (User f)). by rewrite Hm.
  - apply extends_same_log. apply (once_log e (User f)). by rewrite Hm.
  - apply (emit_extends d apply e a); [done|]. by rewrite Hm.
  - apply (emit_extends d apply e a); [done|]. by rewrite Hm.
Qed.

Lemma run_extends d apply p w w' :
  logs_from d apply → final (run apply p w) = Some w' → extends d w w'.
Proof.
  intros Happly. revert w.
  induction p as [|x|k IH|s k IH|c k IH]; simpl; intros w H.
  - simplify_eq. apply extends_refl.
  - simplify_eq. apply extends_refl.
  - by apply (IH (client w)).
  - apply IH in H. destruct H as (n & Hn & F). by exists n.
  - destruct (perform apply c w) as [r w1|x w1|] eqn:Hp; [| |done].
    + eapply extends_trans; [|by eapply IH].
      apply (perform_extends d apply c); [done|]. by rewrite Hp.
    + eapply extends_trans; [|by eapply IH].
      apply (perform_extends d apply c); [done|]. by rewrite Hp.
Qed.

(** A call of a listener writes its own entry first; whatever follows
    was called from inside it. *)
Lemma invoke_log fuel : ∀ d h args w w',
  final (invoke body fuel d h args w) = Some w' →
  ∃ new, log w' = log w ++ Entry d h args :: new
         ∧ Forall (λ en, S d ≤ depth en) new.
Proof.
  induction fuel as [|fuel IH]; intros d h args w w'; simpl; [done|].
  assert (Hfrom : logs_from (S d) (invoke body fuel (S d))).
  { intros h1 a1 w1 w2 H. apply IH in H as (n & Hn & F).
    exists (Entry (S d) h1 a1 :: n). split; [done|].
    constructor; [simpl; lia|]. eapply Forall_impl; [exact F|]. simpl. intros; lia. }
  destruct h as [f|id e l].
  - intros H. apply (run_extends (S d)) in H as (n & Hn & F); [|done].
    exists n. split; [|done]. rewrite Hn. simpl. by rewrite <- app_assoc.
  - intros H. apply bind_final in H as [(a & w1 & Hm & Hk)|(x & Hm)].
    + apply off_log in Hk.
      assert (E : extends (S d) (record (Entry d (OnceWrapper id e l) args) w) w1).
      { apply (Hfrom l args). by rewrite Hm. }
      destruct E as (n & Hn & F). exists n. split; [|done].
      rewrite Hk, Hn. simpl. by rewrite <- app_assoc.
    + assert (E : extends (S d) (record (Entry d (OnceWrapper id e l) args) w) w').
      { apply (Hfrom l args). by rewrite Hm. }
      destruct E as (n & Hn & F). exists n. split; [|done].
      rewrite Hn. simpl. by rewrite <- app_assoc.
Qed.

Lemma invoke_logs_from fuel d : logs_from d (invoke body fuel d).
Proof.
  intros h args w w' H. apply invoke_log in H as (n & Hn & F).
  exists (Entry d h args :: n). split; [done|].
  constructor; [simpl; lia|]. eapply Forall_impl; [exact F|]. simpl. intros; lia.
Qed.

Lemma invoke_calls fuel d h args w w' :
  final (invoke body fuel d h args w) = Some w' →
  calls_at d (new_entries w w') = [Entry d h args].
Proof.
  intros H. apply invoke_log in H as (n & Hn & F).
  rewrite (new_entries_app _ _ _ Hn), calls_at_cons_here.
  by rewrite (calls_at_deeper _ _ F).
Qed.

(** The one-shot adapter calls the function it wraps, one level deeper
    and with the arguments it was given, before anything else. *)
Lemma invoke_wrapper_log fuel d id e l args w w' :
  final (invoke body fuel d (OnceWrapper id e l) args w) = Some w' →
  ∃ new, log w' = log w ++ Entry d (OnceWrapper id e l) args :: Entry (S d) l args :: new.
Proof.
  destruct fuel as [|fuel]; simpl; [done|]. intros H.
  apply bind_final in H as [(a & w1 & Hm & Hk)|(x & Hm)].
  - apply off_log in Hk.
    assert (Hf : final (invoke body fuel (S d) l args
                          (record (Entry d (OnceWrapper id e l) args) w)) = Some w1)
      by (by rewrite Hm).
    apply invoke_log in Hf as (n & Hn & _). exists n.
    rewrite Hk, Hn. simpl. by rewrite <- app_assoc.
  - assert (Hf : final (invoke body fuel (S d) l args
                          (record (Entry d (OnceWrapper id e l) args) w)) = Some w')
      by (by rewrite Hm).
    apply invoke_log in Hf as (n & Hn & _). exists n.
    rewrite Hn. simpl. by rewrite <- app_assoc.
Qed.

End RunFacts.

(** * What one [emit] calls *)

Section EmitFacts.
Context {value store : Type}.
Variable body : nat → list value → prog value store.
Implicit Types (w : world value store) (h : handle) (ls : list handle).

Lemma forEach_app (cb : handle → M value store unit) ls1 ls2 w :
  forEach cb (ls1 ++ ls2) w = bind (forEach cb ls1) (λ _, forEach cb ls2) w.
Proof.
  revert w. induction ls1 as [|fn rest IH]; intros w; simpl; [done|].
  unfold bind. destruct (cb fn w) as [a w1|x w1|]; [|done|done].
  rewrite IH. done.
Qed.

(** The four ways [emit] can go, by what [this.events[eventName]] is. *)
Lemma emit_cases (apply : handle → list value → M value store unit) e args w :
  emit apply e args w =
  match events w !! e with
  | Some [] => Done false w
  | Some ls => bind (forEach (λ fn, apply fn args) ls) (λ _, ret true) w
  | None =>
    match inherited e with
    | None | Some (PFunction 0) => Done false w
    | Some _ => Failed TypeError w
    end
  end.
Proof.
  unfold emit, get. destruct (events w !! e) as [[|fn rest]|]; simpl; [done|done|].
  destruct (inherited e) as [[[|n]|]|]; done.
Qed.

Lemma emit_done_inv (apply : handle → list value → M value store unit) e args w b w' :
  emit apply e args w = Done b w' →
  (b = false ∧ w' = w ∧ listeners_of (events w) e = [])
  ∨ (b = true ∧ listeners_of (events w) e ≠ []
     ∧ forEach (λ fn, apply fn args) (listeners_of (events w) e) w = Done tt w').
Proof.
  rewrite emit_cases. unfold listeners_of.
  destruct (events w !! e) as [[|fn rest]|].
  - intros; simplify_eq. by left.
  - intros H. right. unfold bind in H.
    destruct (forEach _ _ w) as [[] w1|x w1|]; [|done|done].
    unfold ret in H. by simplify_eq.
  - destruct (inherited e) as [[[|n]|]|]; intros; simplify_eq; by left.
Qed.

Lemma forEach_calls_done fuel d args ls : ∀ w w',
  forEach (λ fn, invoke body fuel d fn args) ls w = Done tt w' →
  calls_at d (new_entries w w') = (λ h, Entry d h args) <$> ls.
Proof.
  induction ls as [|fn rest IH]; simpl; intros w w' H.
  - unfold ret in H. simplify_eq. by rewrite new_entries_refl.
  - unfold bind in H.
    destruct (invoke body fuel d fn args w) as [a w1|x w1|] eqn:Hfn; [|done|done].
    assert (Hf : final (invoke body fuel d fn args w) = Some w1) by (by rewrite Hfn).
    assert (E1 : extends d w w1) by (by eapply invoke_logs_from).
    assert (E2 : extends d w1 w').
    { eapply (forEach_extends d (invoke body fuel d)); [apply invoke_logs_from|].
      by rewrite H. }
    rewrite (new_entries_trans d w w1 w' E1 E2), calls_at_app.
    rewrite (invoke_calls _ _ _ _ _ _ _ Hf). simpl. f_equal. by apply IH.
Qed.

Lemma forEach_failed_inv fuel d args ls : ∀ w w' x,
  forEach (λ fn, invoke body fuel d fn args) ls w = Failed x w' →
  ∃ before h after w1,
    ls = before ++ h :: after
    ∧ forEach (λ fn, invoke body fuel d fn args) before w = Done tt w1
    ∧ invoke body fuel d h args w1 = Failed x w'.
Proof.
  induction ls as [|fn rest IH]; simpl; intros w w' x H; [done|].
  unfold bind in H.
  destruct (invoke body fuel d fn args w) as [[] w1|y w1|] eqn:Hfn; [| |done].
  - apply IH in H as (before & h & after & w2 & -> & Hb & Hh).
    exists (fn :: before), h, after, w2. split; [done|]. split; [|done].
    simpl. unfold bind. by rewrite Hfn.
  - simplify_eq. by exists [], fn, rest, w.
Qed.

Lemma forEach_calls_failed fuel d args before h after w w1 w2 x :
  forEach (λ fn, invoke body fuel d fn args) before w = Done tt w1 →
  invoke body fuel d h args w1 = Failed x w2 →
  forEach (λ fn, invoke body fuel d fn args) (before ++ h :: after) w = Failed x w2
  ∧ calls_at d (new_entries w w2) = (λ h, Entry d h args) <$> (before ++ [h]).
Proof.
  intros Hb Hh. split.
  - rewrite forEach_app. unfold bind at 1. rewrite Hb. simpl.
    unfold bind. by rewrite Hh.
  - assert (Hf : final (invoke body fuel d h args w1) = Some w2) by (by rewrite Hh).
    assert (E1 : extends d w w1).
    { eapply (forEach_extends d (invoke body fuel d)); [apply invoke_logs_from|].
      by rewrite Hb. }
    assert (E2 : extends d w1 w2) by (by eapply invoke_logs_from).
    rewrite (new_entries_trans d w w1 w2 E1 E2), calls_at_app.
    rewrite (invoke_calls _ _ _ _ _ _ _ Hf), (forEach_calls_done _ _ _ _ _ _ Hb).
    by rewrite fmap_app.
Qed.

Lemma forEach_returns fuel d args ls :
  (∀ h w1, h ∈ ls → ∃ w2, invoke body fuel d h args w1 = Done tt w2) →
  ∀ w, ∃ w', forEach (λ fn, invoke body fuel d fn args) ls w = Done tt w'.
Proof.
  induction ls as [|fn rest IH]; intros Hret w; simpl.
  - by exists w.
  - destruct (Hret fn w) as (w1 & H1); [by left|].
    destruct (IH (λ h w1 Hin, Hret h w1 (list_elem_of_further _ _ _ Hin)) w1) as (w' & H').
    exists w'. unfold bind. by rewrite H1.
Qed.

(** Calls of [emit] at depth [d] are the snapshot, whatever happened
    to the registry meanwhile. *)
Lemma emit_calls fuel d e args w b w' :
  emit (invoke body fuel d) e args w = Done b w' →
  calls_at d (new_entries w w') = (λ h, Entry d h args) <$> listeners_of (events w) e.
Proof.
  intros H. apply emit_done_inv in H as [(-> & -> & Hl)|(-> & Hne & Hfor)].
  - by rewrite Hl, new_entries_refl.
  - exact (forEach_calls_done fuel d args _ w w' Hfor).
Qed.

Lemma emit_returns_true fuel d e args w ls :
  listeners_of (events w) e = ls → ls ≠ [] →
  (∀ h w1, h ∈ ls → ∃ w2, invoke body fuel d h args w1 = Done tt w2) →
  ∃ w', emit (invoke body fuel d) e args w = Done true w'.
Proof.
  intros Hl Hne Hret.
  destruct (forEach_returns fuel d args ls Hret w) as (w' & Hfor).
  exists w'. rewrite emit_cases. unfold listeners_of in Hl.
  destruct (events w !! e) as [ls'|]; [|by subst ls]. subst ls'.
  destruct ls as [|fn rest]; [done|]. unfold bind. by rewrite Hfor.
Qed.

End EmitFacts.

(** * The claims about [emit] *)

Section EmitClaims.
Context {value store : Type}.
Variable body : nat → list value → prog value store.
Implicit Types (w : world value store) (h : handle) (ls : list handle).

(** C1.  An [emit] that returns has called, at its own depth, exactly the
    listeners that the registry held for the name when it started, in
    that order and with the arguments of the call, whatever the listeners
    did to the registry meanwhile.  So a listener that was not in the
    snapshot (one added while the call ran) is not called by this
    [emit]; a listener of the snapshot is called even if it is no longer
    registered at the end; and a listener that is registered at the end
    is called by the next [emit] of the name that returns. *)
Theorem emit_invokes_snapshot fuel d e args w b w' :
  emit (invoke body fuel d) e args w = Done b w' →
  calls_at d (new_entries w w') = (λ h, Entry d h args) <$> listeners_of (events w) e
  ∧ (∀ h a, h ∉ listeners_of (events w) e → Entry d h a ∉ new_entries w w')
  ∧ (∀ h, h ∈ listeners_of (events w) e → Entry d h args ∈ new_entries w w')
  ∧ (∀ h fuel2 args2 b2 w2,
       h ∈ listeners_of (events w') e →
       emit (invoke body fuel2 d) e args2 w' = Done b2 w2 →
       Entry d h args2 ∈ new_entries w' w2).
Proof.
  intros H. pose proof (emit_calls body _ _ _ _ _ _ _ H) as Hcalls.
  split; [exact Hcalls|]. split; [|split].
  - intros h a Hnot Hin. apply Hnot.
    assert (Hc : Entry d h a ∈ calls_at d (new_entries w w')).
    { unfold calls_at. apply list_elem_of_filter. by split. }
    rewrite Hcalls in Hc. apply list_elem_of_fmap in Hc as (h' & Heq & Hh').
    by simplify_eq.
  - intros h Hin. apply (elem_of_calls_at d). rewrite Hcalls.
    apply list_elem_of_fmap. eauto.
  - intros h fuel2 args2 b2 w2 Hin H2. apply (elem_of_calls_at d).
    rewrite (emit_calls body _ _ _ _ _ _ _ H2). apply list_elem_of_fmap. eauto.
Qed.

(** C4.  When the name has listeners, and each of them returns when
    called with the arguments, [emit] returns [true] after calling every
    entry of the array once per occurrence, from first registered to
    last, each with exactly the arguments of the call.  And whenever an
    [emit] on a name with listeners returns, it returns [true] and has
    made exactly those calls. *)
Theorem emit_calls_each_in_order fuel d e args w ls :
  listeners_of (events w) e = ls → ls ≠ [] →
  ((∀ h w1, h ∈ ls → ∃ w2, invoke body fuel d h args w1 = Done tt w2) →
   ∃ w', emit (invoke body fuel d) e args w = Done true w'
         ∧ calls_at d (new_entries w w') = (λ h, Entry d h args) <$> ls)
  ∧ (∀ b w', emit (invoke body fuel d) e args w = Done b w' →
       b = true ∧ calls_at d (new_entries w w') = (λ h, Entry d h args) <$> ls).
Proof.
  intros Hl Hne. split.
  - intros Hret.
    destruct (forEach_returns body fuel d args ls Hret w) as (w' & Hfor).
    exists w'. split; [|by eapply forEach_calls_done].
    rewrite emit_cases. unfold listeners_of in Hl.
    destruct (events w !! e) as [ls'|]; [|by subst ls]. subst ls'.
    destruct ls as [|fn rest]; [done|]. unfold bind. by rewrite Hfor.
  - intros b w' H. split.
    + apply emit_done_inv in H as [(_ & _ & Hnil)|(-> & _)]; [congruence|done].
    + rewrite <- Hl. by eapply emit_calls.
Qed.

(** C9.  If the listeners before the k-th of the snapshot return and the
    k-th throws, [emit] throws the same exception in the state the
    listener left, and its calls are the first k listeners of the
    snapshot: none after the k-th is called. *)
Theorem emit_propagates_failure fuel d e args w before h after x w1 w2 :
  listeners_of (events w) e = before ++ h :: after →
  forEach (λ fn, invoke body fuel d fn args) before w = Done tt w1 →
  invoke body fuel d h args w1 = Failed x w2 →
  emit (invoke body fuel d) e args w = Failed x w2
  ∧ calls_at d (new_entries w w2) = (λ h, Entry d h args) <$> (before ++ [h]).
Proof.
  intros Hl Hb Hh.
  destruct (forEach_calls_failed body fuel d args before h after w w1 w2 x Hb Hh)
    as [Hfor Hcalls].
  split; [|exact Hcalls].
  rewrite emit_cases. unfold listeners_of in Hl.
  destruct (events w !! e) as [ls'|]; [|by destruct before].
  subst ls'. destruct (before ++ h :: after) as [|fn rest] eqn:Heq.
  { by destruct before. }
  unfold bind. by rewrite Hfor.
Qed.

End EmitClaims.

(** * The claims about [once] *)

Section OnceClaims.
Context {value store : Type}.
Variable body : nat → list value → prog value store.
Implicit Types (w : world value store) (h : handle) (ls : list handle).
Implicit Types (apply : handle → list value → M value store unit).

Lemma invoke_user fuel d f args w :
  invoke body (S fuel) d (User f) args w =
  run (invoke body fuel (S d)) (body f args) (record (Entry d (User f) args) w).
Proof. done. Qed.

Lemma invoke_wrapper fuel d id e l args w :
  invoke body (S fuel) d (OnceWrapper id e l) args w =
  bind (invoke body fuel (S d) l args) (λ _, off e (Some (OnceWrapper id e l)))
       (record (Entry d (OnceWrapper id e l) args) w).
Proof. done. Qed.

Lemma set_client_same w : set_client (client w) w = w.
Proof. by destruct w. Qed.

(** Code that does not call the emitter changes nothing but the
    client's own state. *)
Lemma run_plain apply p : plain p → ∀ w, ∃ s, run apply p w = Done tt (set_client s w).
Proof.
  induction 1 as [|k _ IH|s k _ IH]; intros w; simpl.
  - exists (client w). by rewrite set_client_same.
  - apply IH.
  - destruct (IH (set_client s w)) as (s' & ->). by exists s'.
Qed.


Lemma on_done e h w w' :
  on e h w = Done tt w' →
  w' = set_events (<[e := listeners_of (events w) e ++ [h]]> (events w)) w.
Proof.
  destruct (events w !! e) as [ls|] eqn:Hl.
  - rewrite (on_own _ _ _ _ Hl), (listeners_of_Some _ _ _ Hl). by intros; simplify_eq.
  - destruct (inherited e) as [p|] eqn:Hin.
    + by rewrite (on_inherited _ _ _ _ Hl Hin).
    + rewrite (on_ordinary _ _ _ Hin). by intros; simplify_eq.
Qed.

Lemma once_done e l w w' :
  once e l w = Done tt w' →
  w' = set_events
         (<[e := listeners_of (events w) e ++ [OnceWrapper (next_id w) e l]]> (events w))
         (set_next_id (S (next_id w)) w).
Proof. rewrite once_unfold. intros H. by apply on_done in H. Qed.

Lemma filter_out_only h : filter (λ fn, fn ≠ h) [h] = [].
Proof. rewrite filter_cons_False by (intros H; by apply H). done. Qed.

(** C7.  After [once(e, f)] on an emitter that has no other listener for
    [e], where [f] is a function that returns without calling the
    emitter: the first [emit(e, x)] returns [true], and its calls are
    the adapter and then [f], each once and with exactly [x]; a second
    [emit(e, x)] returns [false] and changes nothing, so [f] is not
    called. *)
Theorem once_fires_once fuel e f x w w1 :
  listeners_of (events w) e = [] →
  once e (User f) w = Done tt w1 →
  plain (body f x) →
  2 ≤ fuel →
  ∃ w2, emit_call body fuel e x w1 = Done true w2
        ∧ new_entries w1 w2 =
            [Entry 0 (OnceWrapper (next_id w) e (User f)) x; Entry 1 (User f) x]
        ∧ emit_call body fuel e x w2 = Done false w2.
Proof.
  intros Hl Honce Hplain Hfuel.
  destruct fuel as [|[|fuel]]; [lia|lia|].
  apply once_done in Honce. rewrite Hl in Honce. simpl in Honce.
  set (W := OnceWrapper (next_id w) e (User f)) in *.
  assert (Hw1 : events w1 !! e = Some [W]).
  { subst w1. simpl. by rewrite lookup_insert_eq. }
  unfold emit_call. rewrite emit_cases, Hw1.
  unfold forEach, bind at 1 2. unfold W at 1.
  rewrite (invoke_wrapper (S fuel) 0 (next_id w) e (User f) x w1).
  unfold bind at 1. rewrite invoke_user. fold W.
  set (w0 := record (Entry 1 (User f) x) (record (Entry 0 W x) w1)).
  destruct (run_plain (invoke body fuel 2) (body f x) Hplain w0) as (s & ->).
  assert (Hw0 : events (set_client s w0) !! e = Some [W]) by done.
  rewrite (off_listener_own _ _ _ _ Hw0), filter_out_only.
  eexists. split; [reflexivity|]. split.
  - apply new_entries_app. simpl. by rewrite <- app_assoc.
  - rewrite emit_cases. simpl. by rewrite lookup_insert_eq.
Qed.

Lemma forEach_member fuel d args ls h : ∀ w w',
  forEach (λ fn, invoke body fuel d fn args) ls w = Done tt w' →
  h ∈ ls →
  ∃ wa wb, extends d w wa ∧ invoke body fuel d h args wa = Done tt wb ∧ extends d wb w'.
Proof.
  induction ls as [|fn rest IH]; intros w w' H Hin; [by apply elem_of_nil in Hin|].
  simpl in H. unfold bind in H.
  destruct (invoke body fuel d fn args w) as [[] w1|y w1|] eqn:Hfn; [|done|done].
  assert (E1 : extends d w w1).
  { apply (invoke_logs_from body fuel d fn args). by rewrite Hfn. }
  assert (E2 : extends d w1 w').
  { eapply (forEach_extends d (invoke body fuel d)); [apply invoke_logs_from|].
    by rewrite H. }
  apply elem_of_cons in Hin as [->|Hin].
  - exists w, w1. split; [apply extends_refl|]. by split.
  - destruct (IH w1 w' H Hin) as (wa & wb & Ea & Hh & Eb).
    exists wa, wb. split; [by eapply extends_trans|]. by split.
Qed.

(** An [emit] that returns has run every adapter of its snapshot, and
    with it the function the adapter wraps. *)
Lemma emit_runs_wrapped fuel d e args w b w' id e' l :
  emit (invoke body fuel d) e args w = Done b w' →
  OnceWrapper id e' l ∈ listeners_of (events w) e →
  Entry d (OnceWrapper id e' l) args ∈ new_entries w w'
  ∧ Entry (S d) l args ∈ new_entries w w'.
Proof.
  intros H Hin.
  apply emit_done_inv in H as [(_ & _ & Hnil)|(_ & _ & Hfor)].
  { rewrite Hnil in Hin. by apply elem_of_nil in Hin. }
  destruct (forEach_member _ _ _ _ _ _ _ Hfor Hin) as (wa & wb & Ea & Hh & Eb).
  assert (Hf : final (invoke body fuel d (OnceWrapper id e' l) args wa) = Some wb)
    by (by rewrite Hh).
  apply invoke_wrapper_log in Hf as (n & Hn).
  destruct Ea as (na & Hna & _). destruct Eb as (nb & Hnb & _).
  assert (Hlog : log w' = log w ++
            (na ++ Entry d (OnceWrapper id e' l) args :: Entry (S d) l args :: n ++ nb)).
  { rewrite Hnb, Hn, Hna. rewrite <- !app_assoc. done. }
  rewrite (new_entries_app _ _ _ Hlog). split.
  - apply elem_of_app. right. by left.
  - apply elem_of_app. right. right. by left.
Qed.

(** [off(e, f)] with a client function never removes an adapter. *)
Lemma off_original_keeps_adapter e f id e0 l w ls :
  events w !! e = Some ls → OnceWrapper id e0 l ∈ ls →
  ∃ w2, off e (Some (User f)) w = Done tt w2
        ∧ OnceWrapper id e0 l ∈ listeners_of (events w2) e.
Proof.
  intros Hl Hin. rewrite (off_listener_own _ _ _ _ Hl). eexists. split; [done|].
  simpl. rewrite listeners_of_insert. apply list_elem_of_filter. by split.
Qed.

End OnceClaims.

(** * More stack never changes a result *)

Section Fuel.
Context {value store : Type}.
Variable body : nat → list value → prog value store.
Implicit Types (w : world value store) (h : handle) (ls : list handle).
Implicit Types (apply : handle → list value → M value store unit).

Lemma bind_refines {A B} (m m' : M value store A) (k k' : A → M value store B) w :
  (m w ≠ OutOfFuel → m' w = m w) →
  (∀ a w1, k a w1 ≠ OutOfFuel → k' a w1 = k a w1) →
  bind m k w ≠ OutOfFuel → bind m' k' w = bind m k w.
Proof.
  intros Hm Hk. unfold bind. destruct (m w) as [a w1|x w1|] eqn:E.
  - rewrite Hm by done. apply Hk.
  - by rewrite Hm.
  - done.
Qed.

Lemma forEach_refines apply apply' args ls :
  refines apply apply' →
  ∀ w, forEach (λ fn, apply fn args) ls w ≠ OutOfFuel →
       forEach (λ fn, apply' fn args) ls w = forEach (λ fn, apply fn args) ls w.
Proof.
  intros Href. induction ls as [|fn rest IH]; simpl; intros w; [done|].
  apply bind_refines; [apply Href|]. intros _ w1. apply IH.
Qed.

Lemma emit_refines apply apply' e args w :
  refines apply apply' →
  emit apply e args w ≠ OutOfFuel → emit apply' e args w = emit apply e args w.
Proof.
  intros Href. rewrite !emit_cases.
  destruct (events w !! e) as [[|fn rest]|]; [done| |done].
  apply bind_refines; [|done]. by apply forEach_refines.
Qed.

Lemma perform_refines apply apply' c w :
  refines apply apply' →
  perform apply c w ≠ OutOfFuel → perform apply' c w = perform apply c w.
Proof.
  intros Href. destruct c as [e f|e f|e f|e a]; simpl; [done|done|done|].
  apply bind_refines; [|done]. by apply emit_refines.
Qed.

Lemma run_refines apply apply' p :
  refines apply apply' →
  ∀ w, run apply p w ≠ OutOfFuel → run apply' p w = run apply p w.
Proof.
  intros Href. induction p as [|x|k IH|s k IH|c k IH]; simpl; intros w; try done.
  - apply IH.
  - apply IH.
  - intros H. destruct (perform apply c w) as [r w1|x w1|] eqn:E; [| |done].
    + rewrite (perform_refines apply apply' c w Href) by (by rewrite E).
      rewrite E. by apply IH.
    + rewrite (perform_refines apply apply' c w Href) by (by rewrite E).
      rewrite E. by apply IH.
Qed.

Lemma invoke_more_fuel fuel : ∀ d, refines (invoke body fuel d) (invoke body (S fuel) d).
Proof.
  induction fuel as [|fuel IH]; intros d h args w; [done|].
  destruct h as [f|id e l].
  - rewrite !invoke_user. apply run_refines, IH.
  - rewrite !invoke_wrapper. apply bind_refines; [apply IH|done].
Qed.

(** A call that ends within [fuel] activations ends the same way within
    any larger bound. *)
Lemma invoke_fuel_le fuel fuel' d h args w :
  fuel ≤ fuel' → invoke body fuel d h args w ≠ OutOfFuel →
  invoke body fuel' d h args w = invoke body fuel d h args w.
Proof.
  induction 1 as [|fuel' _ IH]; [done|]. intros H.
  rewrite <- (IH H). apply invoke_more_fuel. by rewrite (IH H).
Qed.

Lemma emit_call_fuel_le fuel fuel' e args w :
  fuel ≤ fuel' → emit_call body fuel e args w ≠ OutOfFuel →
  emit_call body fuel' e args w = emit_call body fuel e args w.
Proof.
  intros Hle. apply emit_refines. intros h a w0. by apply invoke_fuel_le.
Qed.

End Fuel.

(** * Registries that client code can build *)

Section WellFormed.
Context {value store : Type}.
Variable body : nat → list value → prog value store.
Implicit Types (w : world value store) (h : handle) (ls : list handle).
Implicit Types (apply : handle → list value → M value store unit).

Lemma well_formed_new (s : store) :
  well_formed (events (new_emitter (value := value) s)).
Proof. intros e ls H. simpl in H. by rewrite lookup_empty in H. Qed.

Lemma well_formed_insert ev e ls :
  well_formed ev → Forall (registered_for e) ls → well_formed (<[e := ls]> ev).
Proof.
  intros Hwf Hls e1 ls1 H. apply lookup_insert_Some in H as [[<- <-]|[_ H]]; [done|].
  by apply (Hwf e1).
Qed.

Lemma on_well_formed e h w w' :
  well_formed (events w) → registered_for e h →
  final (on e h w) = Some w' → well_formed (events w').
Proof.
  intros Hwf Hh. unfold on.
  destruct (falsy (get (events w) e)) eqn:Hfalsy; simpl.
  - unfold get at 1. rewrite lookup_insert_eq. simpl. intros; simplify_eq. simpl.
    apply well_formed_insert; [by apply well_formed_insert|].
    apply Forall_cons. by split.
  - unfold get. destruct (events w !! e) as [ls|] eqn:Hl; simpl.
    + intros; simplify_eq. simpl. apply well_formed_insert; [done|].
      apply Forall_app. split; [by apply (Hwf e)|]. apply Forall_cons. by split.
    + destruct (inherited e); simpl; intros; by simplify_eq.
Qed.

Lemma off_well_formed e o w w' :
  well_formed (events w) → final (off e o w) = Some w' → well_formed (events w').
Proof.
  intros Hwf. unfold off. destruct (falsy _); simpl; [intros; by simplify_eq|].
  destruct o as [l|].
  - unfold get. destruct (events w !! e) as [ls|] eqn:Hl; simpl.
    + intros; simplify_eq. simpl. apply well_formed_insert; [done|].
      apply Forall_forall. intros fn Hfn.
      apply list_elem_of_filter in Hfn as [_ Hfn]. revert fn Hfn.
      apply Forall_forall. by apply (Hwf e).
    + destruct (inherited e); simpl; intros; by simplify_eq.
  - simpl. intros; simplify_eq. simpl. intros e1 ls1 H.
    apply lookup_delete_Some in H as [_ H]. by apply (Hwf e1).
Qed.

Lemma once_well_formed e f w w' :
  well_formed (events w) →
  final (once e (User f) w) = Some w' → well_formed (events w').
Proof.
  intros Hwf. rewrite once_unfold. apply on_well_formed; [done|].
  split; [done|]. by exists f.
Qed.

Lemma forEach_well_formed apply args ls :
  keeps_well_formed apply →
  ∀ w w', well_formed (events w) →
          final (forEach (λ fn, apply fn args) ls w) = Some w' →
          well_formed (events w').
Proof.
  intros Happly. induction ls as [|fn rest IH]; simpl; intros w w' Hwf H.
  - by simplify_eq.
  - apply bind_final in H as [(a & w1 & Hm & Hk)|(x & Hm)].
    + apply (IH w1); [|done]. apply (Happly fn args w); [done|]. by rewrite Hm.
    + apply (Happly fn args w); [done|]. by rewrite Hm.
Qed.

Lemma emit_well_formed apply e args w w' :
  keeps_well_formed apply → well_formed (events w) →
  final (emit apply e args w) = Some w' → well_formed (events w').
Proof.
  intros Happly Hwf. rewrite emit_cases.
  destruct (events w !! e) as [[|fn rest]|].
  - simpl. intros; by simplify_eq.
  - intros H. apply bind_final in H as [(a & w1 & Hm & Hk)|(x & Hm)].
    + simpl in Hk. simplify_eq.
      apply (forEach_well_formed apply args (fn :: rest) Happly w); [done|].
      by rewrite Hm.
    + apply (forEach_well_formed apply args (fn :: rest) Happly w); [done|].
      by rewrite Hm.
  - destruct (inherited e) as [[[|n]|]|]; simpl; intros; by simplify_eq.
Qed.

Lemma perform_well_formed apply c w w' :
  keeps_well_formed apply → well_formed (events w) →
  final (perform apply c w) = Some w' → well_formed (events w').
Proof.
  intros Happly Hwf. destruct c as [e f|e f|e f|e a]; simpl; intros H;
    apply bind_final in H as [(r & w1 & Hm & Hk)|(x & Hm)]; simpl in *; simplify_eq.
  - apply (on_well_formed e (User f) w); [done|done|by rewrite Hm].
  - apply (on_well_formed e (User f) w); [done|done|by rewrite Hm].
  - apply (off_well_formed e (User <$> f) w); [done|by rewrite Hm].
  - apply (off_well_formed e (User <$> f) w); [done|by rewrite Hm].
  - apply (once_well_formed e f w); [done|by rewrite Hm].
  - apply (once_well_formed e f w); [done|by rewrite Hm].
  - apply (emit_well_formed apply e a w); [done|done|by rewrite Hm].
  - apply (emit_well_formed apply e a w); [done|done|by rewrite Hm].
Qed.

Lemma run_well_formed apply p :
  keeps_well_formed apply →
  ∀ w w', well_formed (events w) → final (run apply p w) = Some w' →
          well_formed (events w').
Proof.
  intros Happly.
  induction p as [|x|k IH|s k IH|c k IH]; simpl; intros w w' Hwf H.
  - by simplify_eq.
  - by simplify_eq.
  - by apply (IH (client w) w).
  - by apply (IH (set_client s w)).
  - destruct (perform apply c w) as [r w1|x w1|] eqn:Hp; [| |done].
    + apply (IH (Returned r) w1); [|done].
      apply (perform_well_formed apply c w); [done|done|by rewrite Hp].
    + apply (IH (Threw x) w1); [|done].
      apply (perform_well_formed apply c w); [done|done|by rewrite Hp].
Qed.

Lemma invoke_well_formed fuel : ∀ d, keeps_well_formed (invoke body fuel d).
Proof.
  induction fuel as [|fuel IH]; intros d h args w w' Hwf; simpl; [done|].
  destruct h as [f|id e l].
  - apply (run_well_formed _ _ (IH (S d))). done.
  - intros H. apply bind_final in H as [(a & w1 & Hm & Hk)|(x & Hm)].
    + apply (off_well_formed e (Some (OnceWrapper id e l)) w1); [|done].
      apply (IH (S d) l args (record (Entry d (OnceWrapper id e l) args) w)); [done|].
      by rewrite Hm.
    + apply (IH (S d) l args (record (Entry d (OnceWrapper id e l) args) w)); [done|].
      by rewrite Hm.
Qed.

(** Every state that calls of [on], [off], [once] and [emit] with the
    client's functions lead to, from a new emitter, is well formed. *)
Lemma emit_call_well_formed fuel e args w w' :
  well_formed (events w) →
  final (emit_call body fuel e args w) = Some w' → well_formed (events w').
Proof. apply emit_well_formed, invoke_well_formed. Qed.

End WellFormed.

(** * The claims about the registry *)

Section RegistryClaims.
Context {value store : Type}.
Variable body : nat → list value → prog value store.
Implicit Types (w : world value store) (h : handle) (ls : list handle).

Lemma well_formed_listeners ev e :
  well_formed ev → Forall (registered_for e) (listeners_of ev e).
Proof.
  intros Hwf. unfold listeners_of. destruct (ev !! e) as [ls|] eqn:Hl; [|done].
  by apply (Hwf e).
Qed.





(** C3, as the code has it.  [on] and [once] keep every key of the
    registry on a non-empty array, and leave a non-empty array under
    their own name; [off(e)] without a listener does too, and drops the
    key [e].  [off(e, f)] keeps the key [e] and stores the array without
    [f] under it, empty when [f] was all it held, and leaves the other
    keys alone.  [emit] treats a key holding an empty array like a
    missing one: it returns [false], calls nothing and changes
    nothing. *)
Theorem registry_entries_by_method e h w :
  (∀ w', no_empty_entry (events w) → final (on e h w) = Some w' →
         no_empty_entry (events w'))
  ∧ (∀ w', no_empty_entry (events w) → final (once e h w) = Some w' →
           no_empty_entry (events w'))
  ∧ (∀ w', no_empty_entry (events w) → final (off e None w) = Some w' →
           no_empty_entry (events w') ∧ events w' !! e = None)
  ∧ (∀ ls, events w !! e = Some ls →
           off e (Some h) w =
           Done tt (set_events (<[e := filter (λ fn, fn ≠ h) ls]> (events w)) w))
  ∧ (∀ w' e', e ≠ e' → final (off e (Some h) w) = Some w' →
              events w' !! e' = events w !! e')
  ∧ (∀ (apply : handle → list value → M value store unit) args,
       events w !! e = Some [] → emit apply e args w = Done false w).
Proof.
  assert (Hon : ∀ h' w0 w', no_empty_entry (events w0) → final (on e h' w0) = Some w' →
                            no_empty_entry (events w')).
  { intros h' w0 w' Hinv Hf e1 ls1 Hl1.
    destruct (decide (e = e1)) as [<-|Hne].
    - destruct (on e h' w0) as [[] w1|x w1|] eqn:Hon; simpl in Hf; [| |done]; simplify_eq.
      + apply on_done in Hon. subst w'. simpl in Hl1.
        rewrite lookup_insert_eq in Hl1. simplify_eq.
        intros Hnil. by apply app_eq_nil in Hnil as [_ ?].
      + unfold on in Hon. destruct (falsy _) eqn:Hfalsy.
        * unfold get in Hfalsy. simpl in Hon. unfold get in Hon.
          rewrite lookup_insert_eq in Hon. done.
        * destruct (get (events w0) e); simplify_eq; by eapply Hinv.
    - rewrite (on_frame e e1 h' w0 w' Hne Hf) in Hl1. by eapply Hinv. }
  split; [by apply Hon|]. split; [|split; [|split; [|split]]].
  - intros w' Hinv Hf. rewrite once_unfold in Hf.
    exact (Hon _ (set_next_id (S (next_id w)) w) w' Hinv Hf).
  - intros w' Hinv Hf. unfold off in Hf.
    destruct (falsy (get (events w) e)) eqn:Hfalsy; simpl in Hf; simplify_eq.
    + split; [done|]. unfold get in Hfalsy.
      by destruct (events w' !! e).
    + simpl. split; [|apply lookup_delete_eq].
      intros e1 ls1 Hl1. apply lookup_delete_Some in Hl1 as [_ Hl1]. by eapply Hinv.
  - intros ls Hl. by apply off_listener_own.
  - intros w' e' Hne. by apply off_frame.
  - intros apply args Hl. rewrite emit_cases. by rewrite Hl.
Qed.

End RegistryClaims.

(** * The scenarios, run *)

Section Reached.
Import Scenario.

(** The states of the scenarios are the ones the methods produce. *)
Example reach_two_on_x :
  bind (on "x" (User 0)) (λ _, on "x" (User 1)) fresh = Done tt two_on_x.
Proof. reflexivity. Qed.

Example reach_two_on_e :
  bind (on "e" (User 0)) (λ _, on "e" (User 2)) fresh = Done tt two_on_e.
Proof. reflexivity. Qed.

Example reach_three_on_x :
  bind (on "x" (User 0)) (λ _, bind (on "x" (User 1)) (λ _, on "x" (User 2))) fresh
  = Done tt three_on_x.
Proof. reflexivity. Qed.

Example reach_one_on_z : on "z" (User 0) fresh = Done tt one_on_z.
Proof. reflexivity. Qed.

Example reach_once_on_e : once "e" (User 0) fresh = Done tt once_on_e.
Proof. reflexivity. Qed.

Example reach_on_and_once_z : once "z" (User 0) one_on_z = Done tt on_and_once_z.
Proof. reflexivity. Qed.

Example reach_a_and_b :
  bind (on "a" (User 0)) (λ _, bind (once "a" (User 1)) (λ _, on "b" (User 2))) fresh
  = Done tt a_and_b.
Proof. reflexivity. Qed.

(** [on('x', f); on('x', g); emit('x', 1, 2)]: [f(1, 2)], then [g(1, 2)],
    and [true]. *)
Example emit_x_1_2 :
  emit_call idle 1 "x" [1%Z; 2%Z] two_on_x
  = Done true (World (events two_on_x) 0 tt
                     [Entry 0 (User 0) [1%Z; 2%Z]; Entry 0 (User 1) [1%Z; 2%Z]]).
Proof. reflexivity. Qed.

(** The same function registered twice is called twice. *)
Example emit_duplicate :
  bind (on "x" (User 0)) (λ _, bind (on "x" (User 0))
       (λ _, emit_call idle 1 "x" [3%Z])) fresh
  = Done true (World {[ "x"%string := [User 0; User 0] ]} 0 tt
                     [Entry 0 (User 0) [3%Z]; Entry 0 (User 0) [3%Z]]).
Proof. reflexivity. Qed.

(** [on('z', f); off('z', f); emit('z')] returns [false]. *)
Example emit_z_after_off :
  bind (off "z" (Some (User 0))) (λ _, emit_call idle 1 "z" []) one_on_z
  = Done false emptied_z.
Proof. reflexivity. Qed.

End Reached.

(** * Where the code departs from its documentation *)

Section Departures.
Context {value store : Type}.
Variable body : nat → list value → prog value store.
Implicit Types (w : world value store) (h : handle) (ls : list handle).

(** C5.  On a new emitter, where no listener is registered under any
    name, [emit('constructor', ...)] throws a [TypeError] instead of
    returning [false]: the read [this.events['constructor']] finds the
    function [Object] of [Object.prototype], whose [length] is 1, and
    the spread of a function fails. *)
Theorem emit_constructor_throws fuel (args : list value) (s : store) :
  emit_call body fuel "constructor" args (new_emitter s)
  = Failed TypeError (new_emitter s).
Proof. reflexivity. Qed.

(** C6.  On a new emitter, [off('constructor', f)] throws a [TypeError]
    instead of doing nothing: the function found in [Object.prototype]
    is truthy and has no [filter]. *)
Theorem off_constructor_throws (f : nat) (s : store) :
  off "constructor" (Some (User f)) (new_emitter (value := value) s)
  = Failed TypeError (new_emitter s).
Proof. reflexivity. Qed.

(** What holds of [off] for the names that [Object.prototype] does not
    define. *)
Lemma off_ordinary e o w :
  inherited e = None →
  off e o w =
  Done tt (match events w !! e, o with
           | None, _ => w
           | Some ls, Some l => set_events (<[e := filter (λ fn, fn ≠ l) ls]> (events w)) w
           | Some ls, None => set_events (delete e (events w)) w
           end).
Proof.
  intros Hin. destruct (events w !! e) as [ls|] eqn:Hl.
  - destruct o as [l|]; [by apply off_listener_own|].
    rewrite (off_all _ _ Hin). done.
  - by apply off_absent.
Qed.

Lemma filter_out_spec (l : handle) ls :
  (l ∉ filter (λ fn, fn ≠ l) ls)
  ∧ (filter (λ fn, fn ≠ l) ls) `sublist_of` ls
  ∧ ∀ g, g ≠ l → filter (λ fn, fn = g) (filter (λ fn, fn ≠ l) ls)
                 = filter (λ fn, fn = g) ls.
Proof.
  split; [|split].
  - rewrite list_elem_of_filter. tauto.
  - apply sublist_filter.
  - intros g Hg. induction ls as [|fn rest IH]; [done|].
    destruct (decide (fn = l)) as [->|Hne].
    + rewrite (filter_cons_False (λ fn, fn ≠ l)) by tauto.
      rewrite (filter_cons_False (λ fn, fn = g) l) by congruence. exact IH.
    + rewrite (filter_cons_True (λ fn, fn ≠ l)) by done.
      destruct (decide (fn = g)) as [->|Hne'].
      * rewrite !(filter_cons_True (λ fn, fn = g)) by done. by rewrite IH.
      * rewrite !(filter_cons_False (λ fn, fn = g)) by done. exact IH.
Qed.

(** After [off(e)] the next [emit(e)] returns [false]. *)
Lemma emit_after_off_all (apply : handle → list value → M value store unit) e args w :
  inherited e = None →
  bind (off e None) (λ _, emit apply e args) w
  = Done false (set_events (delete e (events w)) w).
Proof.
  intros Hin. unfold bind. rewrite (off_all _ _ Hin).
  apply emit_no_listeners; [done|]. simpl. apply listeners_of_delete.
Qed.

End Departures.

Section ScenarioFacts.
Import Scenario.

(** C2.  [once('e', f)], where [f] called with [1] emits ['e'] again:
    during [emit('e', 1)] the adapter is still registered when [f]
    runs, so the inner [emit] calls the same adapter, and [f], a second
    time. *)
Theorem once_adapter_fires_twice :
  once "e" (User 0) fresh = Done tt once_on_e
  ∧ emit_call reentrant 4 "e" [1%Z] once_on_e = Done true fired_twice
  ∧ filter (λ en, callee en = OnceWrapper 0 "e" (User 0)) (log fired_twice)
    = [Entry 0 (OnceWrapper 0 "e" (User 0)) [1%Z];
       Entry 2 (OnceWrapper 0 "e" (User 0)) [0%Z]].
Proof. split; [reflexivity|]. split; reflexivity. Qed.

(** C3, as stated, fails: [on('z', f); off('z', f)] leaves the key ['z']
    in the registry, on an empty array. *)
Lemma targeted_off_leaves_empty_entry :
  no_empty_entry (events one_on_z)
  ∧ off "z" (Some (User 0)) one_on_z = Done tt emptied_z
  ∧ events emptied_z !! "z" = Some []
  ∧ ¬ no_empty_entry (events emptied_z).
Proof.
  split; [|split; [reflexivity|split; [reflexivity|]]].
  - intros e ls H. unfold one_on_z, events in H.
    apply lookup_singleton_Some in H as [_ <-]. done.
  - intros H. by apply (H "z"%string []).
Qed.

End ScenarioFacts.

(** * The theorems at work on the scenarios *)

Section Witnesses.
Import Scenario.

(** Function 0 adds function 1 and removes function 2 while ['e'] is
    emitted: the call still runs functions 0 and 2, and not function 1. *)
Lemma emit_invokes_snapshot_witness :
  emit (invoke meddling 1 0) "e" [] two_on_e = Done true meddled
  ∧ calls_at 0 (new_entries two_on_e meddled)
    = [Entry 0 (User 0) []; Entry 0 (User 2) []]
  ∧ (∀ a, Entry 0 (User 1) a ∉ new_entries two_on_e meddled).
Proof.
  split; [reflexivity|].
  destruct (emit_invokes_snapshot meddling 1 0 "e" [] two_on_e true meddled eq_refl)
    as (H1 & H2 & _).
  split; [exact H1|]. intros a. apply H2.
  intros Hin. apply elem_of_cons in Hin as [Heq|Hin]; [discriminate|].
  apply elem_of_cons in Hin as [Heq|Hin]; [discriminate|].
  by apply elem_of_nil in Hin.
Defined.

Lemma emit_calls_each_in_order_witness :
  listeners_of (events two_on_x) "x" = [User 0; User 1]
  ∧ ∃ w', emit (invoke idle 1 0) "x" [1%Z; 2%Z] two_on_x = Done true w'
          ∧ calls_at 0 (new_entries two_on_x w')
            = [Entry 0 (User 0) [1%Z; 2%Z]; Entry 0 (User 1) [1%Z; 2%Z]].
Proof.
  split; [reflexivity|].
  apply (proj1 (emit_calls_each_in_order idle 1 0 "x" [1%Z; 2%Z] two_on_x
                  [User 0; User 1] eq_refl ltac:(discriminate))).
  intros h w1 Hin.
  apply elem_of_cons in Hin as [->|Hin]; [eexists; reflexivity|].
  apply elem_of_cons in Hin as [->|Hin]; [eexists; reflexivity|].
  by apply elem_of_nil in Hin.
Defined.

Lemma emit_propagates_failure_witness :
  emit (invoke failing 1 0) "x" [1%Z] three_on_x = Failed (Thrown 7%Z) second_threw
  ∧ calls_at 0 (new_entries three_on_x second_threw)
    = [Entry 0 (User 0) [1%Z]; Entry 0 (User 1) [1%Z]].
Proof.
  exact (emit_propagates_failure failing 1 0 "x" [1%Z] three_on_x
           [User 0] (User 1) [User 2] (Thrown 7%Z) first_called second_threw
           eq_refl eq_refl eq_refl).
Defined.

Lemma once_fires_once_witness :
  ∃ w2, emit_call idle 2 "e" [5%Z] once_on_e = Done true w2
        ∧ new_entries once_on_e w2
          = [Entry 0 (OnceWrapper 0 "e" (User 0)) [5%Z]; Entry 1 (User 0) [5%Z]]
        ∧ emit_call idle 2 "e" [5%Z] w2 = Done false w2.
Proof.
  exact (once_fires_once idle 2 "e" 0 [5%Z] fresh once_on_e
           eq_refl eq_refl plain_Return (le_n 2)).
Defined.


Lemma registry_entries_by_method_witness :
  events one_on_z !! "z" = Some [User 0]
  ∧ off "z" (Some (User 0)) one_on_z = Done tt emptied_z
  ∧ emit_call idle 1 "z" [] emptied_z = Done false emptied_z.
Proof.
  split; [reflexivity|]. split.
  - exact (proj1 (proj2 (proj2 (proj2
             (registry_entries_by_method "z" (User 0) one_on_z)))) [User 0] eq_refl).
  - exact (proj2 (proj2 (proj2 (proj2 (proj2
             (registry_entries_by_method "z" (User 0) emptied_z)))))
             (invoke idle 1 0) [] eq_refl).
Defined.

End Witnesses.


(** * Beyond the claims: how the methods compose *)

Section Composition.
Context {value store : Type}.
Variable body : nat → list value → prog value store.
Implicit Types (w : world value store) (h : handle) (ls : list handle).
Implicit Types (apply : handle → list value → M value store unit).

Lemma filter_iff_in (P Q : handle → Prop)
    `{!∀ x, Decision (P x)} `{!∀ x, Decision (Q x)} ls :
  (∀ x, x ∈ ls → (P x ↔ Q x)) → filter P ls = filter Q ls.
Proof.
  induction ls as [|a rest IH]; intros Hiff; [done|].
  assert (Hrest : filter P rest = filter Q rest).
  { apply IH. intros x Hx. apply Hiff. by right. }
  destruct (decide (P a)) as [Hp|Hp].
  - rewrite (filter_cons_True P) by done.
    rewrite (filter_cons_True Q) by (apply Hiff; [by left|done]).
    by rewrite Hrest.
  - rewrite (filter_cons_False P) by done.
    rewrite (filter_cons_False Q); [done|].
    intros Hq. apply Hp. apply Hiff; [by left|done].
Qed.

Lemma filter_out_absent h ls : h ∉ ls → filter (λ fn, fn ≠ h) ls = ls.
Proof.
  intros Hnot. induction ls as [|a rest IH]; [done|].
  apply not_elem_of_cons in Hnot as [Hne Hrest].
  rewrite filter_cons_True by done. by rewrite IH.
Qed.

Lemma filter_out_twice h ls :
  filter (λ fn, fn ≠ h) (filter (λ fn, fn ≠ h) ls) = filter (λ fn, fn ≠ h) ls.
Proof.
  apply filter_out_absent. rewrite list_elem_of_filter. tauto.
Qed.

Lemma set_events_same w : set_events (events w) w = w.
Proof. by destruct w. Qed.

(** X1.  A listener added with [on] is the last one called: if [on(e, h)]
    returns and the listeners of [e] return when called, the next
    [emit(e, ...)] returns [true] after calling the listeners that were
    there, in their order, and then [h], all with the arguments given. *)
Theorem on_then_emit fuel d e h args w w1 :
  on e h w = Done tt w1 →
  (∀ h' w0, h' ∈ listeners_of (events w) e ++ [h] →
            ∃ w0', invoke body fuel d h' args w0 = Done tt w0') →
  ∃ w2, emit (invoke body fuel d) e args w1 = Done true w2
        ∧ calls_at d (new_entries w1 w2)
          = (λ h', Entry d h' args) <$> (listeners_of (events w) e ++ [h]).
Proof.
  intros Hon Hret. apply on_done in Hon.
  assert (Hl : listeners_of (events w1) e = listeners_of (events w) e ++ [h]).
  { subst w1. simpl. apply listeners_of_insert. }
  assert (Hne : listeners_of (events w) e ++ [h] ≠ []).
  { intros Hnil. by apply app_eq_nil in Hnil as [_ ?]. }
  destruct (emit_returns_true body fuel d e args w1 _ Hl Hne Hret) as (w2 & Hemit).
  exists w2. split; [done|]. rewrite <- Hl. by eapply emit_calls.
Qed.

(** X2.  [off(e, h)] on a name that has an array of its own returns, calls
    nothing, and leaves under [e] an array in which [h] does not occur,
    which is the old array with elements left out (so in the old order),
    and in which every other handle occurs as often as before. *)
Theorem off_removes_every_occurrence e h w ls :
  events w !! e = Some ls →
  ∃ w' ls', off e (Some h) w = Done tt w'
    ∧ events w' !! e = Some ls'
    ∧ (h ∉ ls')
    ∧ ls' `sublist_of` ls
    ∧ (∀ g, g ≠ h → filter (λ fn, fn = g) ls' = filter (λ fn, fn = g) ls)
    ∧ log w' = log w.
Proof.
  intros Hl. rewrite (off_listener_own _ _ _ _ Hl).
  eexists _, (filter (λ fn, fn ≠ h) ls). split; [done|].
  split; [simpl; apply lookup_insert_eq|].
  destruct (filter_out_spec h ls) as (H1 & H2 & H3). done.
Qed.

(** X3.  After [off(e, h)], an [emit(e, ...)] that returns has called the
    listeners that were registered before other than [h], in their old
    order, and has not called [h]. *)
Theorem off_then_emit fuel d e h args w ls w1 b w2 :
  events w !! e = Some ls →
  off e (Some h) w = Done tt w1 →
  emit (invoke body fuel d) e args w1 = Done b w2 →
  calls_at d (new_entries w1 w2)
  = (λ h', Entry d h' args) <$> filter (λ fn, fn ≠ h) ls
  ∧ ∀ a, Entry d h a ∉ new_entries w1 w2.
Proof.
  intros Hl Hoff Hemit. rewrite (off_listener_own _ _ _ _ Hl) in Hoff.
  simplify_eq.
  pose proof (emit_calls body _ _ _ _ _ _ _ Hemit) as Hcalls.
  simpl in Hcalls. rewrite listeners_of_insert in Hcalls.
  split; [exact Hcalls|]. intros a Hin.
  assert (Hc : Entry d h a ∈ calls_at d (new_entries
            (set_events (<[e:=filter (λ fn, fn ≠ h) ls]> (events w)) w) w2)).
  { unfold calls_at. apply list_elem_of_filter. by split. }
  rewrite Hcalls in Hc. apply list_elem_of_fmap in Hc as (h' & Heq & Hh').
  simplify_eq. apply list_elem_of_filter in Hh' as [Hne _]. by apply Hne.
Qed.

(** X4.  [off] is idempotent: repeating an [off] that returned, with the
    same name and the same listener or none, returns and changes
    nothing. *)
Theorem off_idempotent e o w w' :
  off e o w = Done tt w' → off e o w' = Done tt w'.
Proof.
  assert (Hdel : ∀ w0, get (events w0) e ≠ Absent →
            off e None w0 = Done tt (set_events (delete e (events w0)) w0)).
  { intros w0 Hg. unfold off. by destruct (get (events w0) e). }
  assert (Hdel2 : ∀ w0, off e None (set_events (delete e (events w0)) w0)
                        = Done tt (set_events (delete e (events w0)) w0)).
  { intros w0. destruct (inherited e) as [p|] eqn:Hin.
    - rewrite Hdel.
      + unfold set_events. simpl. by rewrite delete_delete_eq.
      + simpl. by rewrite (get_inherited _ _ p (lookup_delete_eq _ _) Hin).
    - apply off_absent; [simpl; apply lookup_delete_eq|done]. }
  destruct (events w !! e) as [ls|] eqn:Hl.
  - destruct o as [l|].
    + rewrite (off_listener_own _ _ _ _ Hl). intros; simplify_eq.
      erewrite off_listener_own by (simpl; apply lookup_insert_eq).
      rewrite filter_out_twice. unfold set_events. simpl.
      by rewrite insert_insert_eq.
    + rewrite Hdel by (by rewrite (get_own _ _ _ Hl)). intros; simplify_eq.
      apply Hdel2.
  - destruct (inherited e) as [p|] eqn:Hin.
    + destruct o as [l|].
      * by rewrite (off_listener_inherited _ _ _ _ Hl Hin).
      * rewrite Hdel by (by rewrite (get_inherited _ _ _ Hl Hin)).
        intros; simplify_eq. apply Hdel2.
    + rewrite (off_absent _ _ _ Hl Hin). intros; simplify_eq.
      by apply off_absent.
Qed.

(** X5.  [on(e, h)] followed by [off(e, h)], for a handle that was not
    registered under [e], gives back the listeners of every name; the
    state itself is back when [e] had an array before, and otherwise
    differs by the empty array now stored under [e]. *)
Theorem on_off_round_trip e h w w1 :
  on e h w = Done tt w1 →
  h ∉ listeners_of (events w) e →
  ∃ w2, off e (Some h) w1 = Done tt w2
        ∧ (∀ e', listeners_of (events w2) e' = listeners_of (events w) e')
        ∧ (is_Some (events w !! e) → w2 = w)
        ∧ (events w !! e = None → events w2 = <[e := []]> (events w)).
Proof.
  intros Hon Hnot. apply on_done in Hon.
  set (L := listeners_of (events w) e) in *.
  assert (Hw1 : events w1 !! e = Some (L ++ [h])).
  { subst w1. simpl. apply lookup_insert_eq. }
  rewrite (off_listener_own _ _ _ _ Hw1), filter_app, (filter_out_absent h L Hnot).
  rewrite filter_out_only, app_nil_r.
  eexists. split; [done|]. subst w1. simpl. rewrite insert_insert_eq.
  split; [|split].
  - intros e'. destruct (decide (e = e')) as [<-|Hne].
    + apply listeners_of_insert.
    + by apply listeners_of_insert_ne.
  - intros [ls Hl]. unfold set_events. simpl.
    assert (L = ls) as -> by (by apply listeners_of_Some).
    rewrite insert_id by done. by destruct w.
  - intros Hl. unfold L, listeners_of. by rewrite Hl.
Qed.

(** X11.  What [emit] returns tells whether listeners were there: on a
    name with an array of its own, or that [Object.prototype] does not
    define, [emit] without listeners returns [false] and changes nothing;
    and whenever [emit] returns, under any name, it returns [true] exactly
    when the name had listeners, and [false] only with the state
    untouched. *)
Theorem emit_result_reflects_listeners apply e args w :
  (listeners_of (events w) e = [] →
   inherited e = None ∨ is_Some (events w !! e) →
   emit apply e args w = Done false w)
  ∧ (∀ b w', emit apply e args w = Done b w' →
       (b = true ↔ listeners_of (events w) e ≠ []) ∧ (b = false → w' = w)).
Proof.
  split.
  - intros Hl Hname. rewrite emit_cases. unfold listeners_of in Hl.
    destruct (events w !! e) as [ls|] eqn:Hev; [by subst ls|].
    destruct Hname as [->|[? ?]]; done.
  - intros b w' H. apply emit_done_inv in H as [(-> & -> & Hl)|(-> & Hne & _)].
    + split; [|done]. split; [done|]. intros Hne. by destruct Hne.
    + split; [|done]. done.
Qed.

(** X12.  [off(e)] without a listener, on a name that [Object.prototype]
    does not define, returns and leaves no key [e], whatever was
    registered; the other names keep what they had, an [emit(e, ...)]
    right after returns [false] and calls nothing, and an [on(e, h)]
    right after starts a new array holding [h] alone. *)
Theorem off_all_discards e h apply args w :
  inherited e = None →
  ∃ w', off e None w = Done tt w'
    ∧ events w' !! e = None
    ∧ (∀ e', e ≠ e' → events w' !! e' = events w !! e')
    ∧ emit apply e args w' = Done false w'
    ∧ ∃ w'', on e h w' = Done tt w'' ∧ events w'' !! e = Some [h].
Proof.
  intros Hin. rewrite (off_all _ _ Hin). eexists. split; [done|].
  split; [simpl; apply lookup_delete_eq|].
  split; [intros e' Hne; simpl; by apply lookup_delete_ne|].
  split.
  - apply emit_no_listeners; [done|]. simpl. apply listeners_of_delete.
  - rewrite (on_ordinary _ _ _ Hin). eexists. split; [done|].
    simpl. rewrite listeners_of_delete. apply lookup_insert_eq.
Qed.

End Composition.

(** * Beyond the claims: names that [Object.prototype] defines *)

Section Inherited.
Context {value store : Type}.
Variable body : nat → list value → prog value store.
Implicit Types (w : world value store) (h : handle) (ls : list handle).
Implicit Types (apply : handle → list value → M value store unit).

(** X6.  Under a name that [Object.prototype] defines and the registry
    does not hold, nothing can be registered and nothing is called:
    [on], [once] and [off] with a listener throw a [TypeError] ([once]
    having allocated its adapter), [off] without a listener returns, and
    [emit] returns [false] when the inherited member is a function of
    length 0 and throws a [TypeError] otherwise; none of them changes the
    registry or the log. *)
Theorem inherited_name_behaviour e p h apply args w :
  inherited e = Some p → events w !! e = None →
  on e h w = Failed TypeError w
  ∧ once e h w = Failed TypeError (set_next_id (S (next_id w)) w)
  ∧ off e (Some h) w = Failed TypeError w
  ∧ off e None w = Done tt w
  ∧ emit apply e args w =
      (if length_is_zero (Inherited p) then Done false w else Failed TypeError w).
Proof.
  intros Hin Hl. split; [by eapply on_inherited|]. split; [|split; [|split]].
  - rewrite once_unfold. by eapply on_inherited.
  - by eapply off_listener_inherited.
  - unfold off. rewrite (get_inherited _ _ _ Hl Hin). simpl.
    unfold set_events. rewrite delete_id by done. by destruct w.
  - rewrite emit_cases, Hl, Hin. by destruct p as [[|n]|].
Qed.

(** Properties of the registry that [on] and [off] keep are kept by
    everything a listener can do. *)
Section Invariant.
Variable P : gmap string (list handle) → Prop.
Hypothesis P_on : ∀ e h w w', P (events w) → final (on e h w) = Some w' → P (events w').
Hypothesis P_off : ∀ e o w w', P (events w) → final (off e o w) = Some w' → P (events w').

Lemma once_keeps e l w w' : P (events w) → final (once e l w) = Some w' → P (events w').
Proof.
  intros HP. rewrite once_unfold.
  exact (P_on e _ (set_next_id (S (next_id w)) w) w' HP).
Qed.

Lemma forEach_keeps apply args ls :
  keeps P apply →
  ∀ w w', P (events w) → final (forEach (λ fn, apply fn args) ls w) = Some w' →
          P (events w').
Proof.
  intros Happly. induction ls as [|fn rest IH]; simpl; intros w w' HP H.
  - by simplify_eq.
  - apply bind_final in H as [(a & w1 & Hm & Hk)|(x & Hm)].
    + apply (IH w1); [|done]. apply (Happly fn args w); [done|]. by rewrite Hm.
    + apply (Happly fn args w); [done|]. by rewrite Hm.
Qed.

Lemma emit_keeps apply e args w w' :
  keeps P apply → P (events w) → final (emit apply e args w) = Some w' → P (events w').
Proof.
  intros Happly HP. rewrite emit_cases.
  destruct (events w !! e) as [[|fn rest]|].
  - simpl. intros; by simplify_eq.
  - intros H. apply bind_final in H as [(a & w1 & Hm & Hk)|(x & Hm)].
    + simpl in Hk. simplify_eq.
      apply (forEach_keeps apply args (fn :: rest) Happly w); [done|]. by rewrite Hm.
    + apply (forEach_keeps apply args (fn :: rest) Happly w); [done|]. by rewrite Hm.
  - destruct (inherited e) as [[[|n]|]|]; simpl; intros; by simplify_eq.
Qed.

Lemma perform_keeps apply c w w' :
  keeps P apply → P (events w) → final (perform apply c w) = Some w' → P (events w').
Proof.
  intros Happly HP. destruct c as [e f|e f|e f|e a]; simpl; intros H;
    apply bind_final in H as [(r & w1 & Hm & Hk)|(x & Hm)]; simpl in *; simplify_eq.
  - apply (P_on e (User f) w); [done|by rewrite Hm].
  - apply (P_on e (User f) w); [done|by rewrite Hm].
  - apply (P_off e (User <$> f) w); [done|by rewrite Hm].
  - apply (P_off e (User <$> f) w); [done|by rewrite Hm].
  - apply (once_keeps e (User f) w); [done|by rewrite Hm].
  - apply (once_keeps e (User f) w); [done|by rewrite Hm].
  - apply (emit_keeps apply e a w); [done|done|by rewrite Hm].
  - apply (emit_keeps apply e a w); [done|done|by rewrite Hm].
Qed.

Lemma run_keeps apply p :
  keeps P apply →
  ∀ w w', P (events w) → final (run apply p w) = Some w' → P (events w').
Proof.
  intros Happly.
  induction p as [|x|k IH|s k IH|c k IH]; simpl; intros w w' HP H.
  - by simplify_eq.
  - by simplify_eq.
  - by apply (IH (client w) w).
  - by apply (IH (set_client s w)).
  - destruct (perform apply c w) as [r w1|x w1|] eqn:Hp; [| |done].
    + apply (IH (Returned r) w1); [|done].
      apply (perform_keeps apply c w); [done|done|by rewrite Hp].
    + apply (IH (Threw x) w1); [|done].
      apply (perform_keeps apply c w); [done|done|by rewrite Hp].
Qed.

Lemma invoke_keeps fuel : ∀ d, keeps P (invoke body fuel d).
Proof.
  induction fuel as [|fuel IH]; intros d h args w w' HP; simpl; [done|].
  destruct h as [f|id e l].
  - apply (run_keeps _ _ (IH (S d))). done.
  - intros H. apply bind_final in H as [(a & w1 & Hm & Hk)|(x & Hm)].
    + apply (P_off e (Some (OnceWrapper id e l)) w1); [|done].
      apply (IH (S d) l args (record (Entry d (OnceWrapper id e l) args) w)); [done|].
      by rewrite Hm.
    + apply (IH (S d) l args (record (Entry d (OnceWrapper id e l) args) w)); [done|].
      by rewrite Hm.
Qed.

End Invariant.

Lemma clean_new : clean (∅ : gmap string (list handle)).
Proof. intros e p _. apply lookup_empty. Qed.

Lemma clean_insert ev e ls :
  clean ev → inherited e = None → clean (<[e := ls]> ev).
Proof.
  intros Hc Hin e1 p Hp. rewrite lookup_insert_ne; [by eapply Hc|].
  intros ->. congruence.
Qed.

Lemma clean_own ev e ls : clean ev → ev !! e = Some ls → inherited e = None.
Proof.
  intros Hc Hl. destruct (inherited e) as [p|] eqn:Hin; [|done].
  rewrite (Hc e p Hin) in Hl. done.
Qed.

Lemma on_clean e h w w' :
  clean (events w) → final (on e h w) = Some w' → clean (events w').
Proof.
  intros Hc. destruct (events w !! e) as [ls|] eqn:Hl.
  - rewrite (on_own _ _ _ _ Hl). simpl. intros; simplify_eq. simpl.
    apply clean_insert; [done|]. by eapply clean_own.
  - destruct (inherited e) as [p|] eqn:Hin.
    + rewrite (on_inherited _ _ _ _ Hl Hin). simpl. intros; by simplify_eq.
    + rewrite (on_ordinary _ _ _ Hin). simpl. intros; simplify_eq. simpl.
      by apply clean_insert.
Qed.

Lemma off_clean e o w w' :
  clean (events w) → final (off e o w) = Some w' → clean (events w').
Proof.
  intros Hc. unfold off. destruct (falsy _); simpl; [intros; by simplify_eq|].
  destruct o as [l|].
  - unfold get. destruct (events w !! e) as [ls|] eqn:Hl; simpl.
    + intros; simplify_eq. simpl. apply clean_insert; [done|]. by eapply clean_own.
    + destruct (inherited e); simpl; intros; by simplify_eq.
  - simpl. intros; simplify_eq. simpl. intros e1 p Hp.
    apply lookup_delete_None. right. by eapply Hc.
Qed.

(** X7.  The registry never gets a key that hides a member of
    [Object.prototype]: a new emitter has none, and [on], [off], [once]
    and [emit], whatever the listeners do, keep it so.  Such a name
    therefore never has listeners. *)
Theorem registry_never_shadows_prototype fuel e h o args w :
  (∀ s : store, clean (events (new_emitter (value := value) s)))
  ∧ (clean (events w) →
     (∀ w', final (on e h w) = Some w' → clean (events w'))
     ∧ (∀ w', final (off e o w) = Some w' → clean (events w'))
     ∧ (∀ w', final (once e h w) = Some w' → clean (events w'))
     ∧ (∀ w', final (emit_call body fuel e args w) = Some w' → clean (events w'))
     ∧ (∀ p, inherited e = Some p → listeners_of (events w) e = [])).
Proof.
  split; [intros s; apply clean_new|]. intros Hc.
  split; [intros w'; by apply on_clean|].
  split; [intros w'; by apply off_clean|].
  split; [intros w'; by apply (once_keeps clean on_clean)|].
  split.
  - intros w'. apply (emit_keeps clean); [|done].
    apply (invoke_keeps clean on_clean off_clean).
  - intros p Hp. unfold listeners_of. by rewrite (Hc e p Hp).
Qed.

(** X8.  Every adapter in the registry sits in the array of the name it
    captured and wraps a client function: a new emitter has this, and
    [on] and [once] with client functions, [off], and [emit], whatever the
    listeners do, keep it so. *)
Theorem registry_stays_well_formed fuel e f o args w :
  (∀ s : store, well_formed (events (new_emitter (value := value) s)))
  ∧ (well_formed (events w) →
     (∀ w', final (on e (User f) w) = Some w' → well_formed (events w'))
     ∧ (∀ w', final (off e o w) = Some w' → well_formed (events w'))
     ∧ (∀ w', final (once e (User f) w) = Some w' → well_formed (events w'))
     ∧ (∀ w', final (emit_call body fuel e args w) = Some w' →
              well_formed (events w'))).
Proof.
  split; [apply well_formed_new|]. intros Hwf.
  split; [intros w'; by apply on_well_formed|].
  split; [intros w'; by apply off_well_formed|].
  split; [intros w'; by apply once_well_formed|].
  intros w'. by apply emit_call_well_formed.
Qed.

End Inherited.

(** * Beyond the claims: what firing does to adapters *)

Section Firing.
Context {value store : Type}.
Variable body : nat → list value → prog value store.
Implicit Types (w : world value store) (h : handle) (ls : list handle).
Implicit Types (apply : handle → list value → M value store unit).



Lemma filter_all (P : handle → Prop) `{!∀ x, Decision (P x)} ls :
  (∀ x, x ∈ ls → P x) → filter P ls = ls.
Proof.
  induction ls as [|a rest IH]; intros HP; [done|].
  rewrite filter_cons_True by (apply HP; by left).
  rewrite IH; [done|]. intros x Hx. apply HP. by right.
Qed.

(** One registered handle, called in a registry whose array for [e] is
    [cur], with client functions that return without calling the
    emitter: a client function leaves the registry alone, an adapter
    takes itself out of [cur]. *)
Lemma invoke_plain fuel d e h args w cur :
  (∀ f a, plain (body f a)) → registered_for e h → 2 ≤ fuel →
  events w !! e = Some cur →
  ∃ w', invoke body fuel d h args w = Done tt w'
        ∧ events w' =
            (if is_user h then events w
             else <[e := filter (λ fn, fn ≠ h) cur]> (events w))
        ∧ next_id w' = next_id w.
Proof.
  intros Hp Hreg Hfuel Hcur. destruct fuel as [|[|fuel]]; [lia|lia|].
  destruct h as [f|id e0 l].
  - rewrite invoke_user.
    destruct (run_plain (invoke body (S fuel) (S d)) (body f args) (Hp f args)
                (record (Entry d (User f) args) w)) as (s & ->).
    eexists. split; [done|]. done.
  - destruct Hreg as [-> [f ->]]. rewrite invoke_wrapper. unfold bind.
    rewrite invoke_user.
    set (w0 := record (Entry (S d) (User f) args)
                 (record (Entry d (OnceWrapper id e (User f)) args) w)).
    destruct (run_plain (invoke body fuel (S (S d))) (body f args) (Hp f args) w0)
      as (s & ->).
    assert (Hw0 : events (set_client s w0) !! e = Some cur) by done.
    rewrite (off_listener_own _ _ _ _ Hw0).
    eexists. split; [done|]. done.
Qed.

Lemma forEach_plain fuel d e args ss :
  (∀ f a, plain (body f a)) → Forall (registered_for e) ss → 2 ≤ fuel →
  ∀ cur w, events w !! e = Some cur →
  ∃ w', forEach (λ fn, invoke body fuel d fn args) ss w = Done tt w'
        ∧ events w' !! e = Some (filter (λ h, is_user h ∨ h ∉ ss) cur)
        ∧ (∀ e', e ≠ e' → events w' !! e' = events w !! e')
        ∧ next_id w' = next_id w.
Proof.
  intros Hp Hreg Hfuel. induction Hreg as [|fn rest Hfn _ IH]; intros cur w Hcur.
  - exists w. split; [done|]. split; [|done].
    rewrite filter_all; [done|]. intros x _. right. apply not_elem_of_nil.
  - destruct (invoke_plain fuel d e fn args w cur Hp Hfn Hfuel Hcur)
      as (w1 & Hinv & Hev & Hid).
    simpl. unfold bind. rewrite Hinv.
    destruct (is_user fn) eqn:Huser.
    + assert (Hcur1 : events w1 !! e = Some cur) by (by rewrite Hev).
      destruct (IH cur w1 Hcur1) as (w' & Hfor & Hl & Hfr & Hid').
      exists w'. split; [done|]. split; [|split].
      * rewrite Hl. f_equal. apply list_filter_iff. intros x. split.
        -- intros [Hx|Hx]; [by left|]. destruct (is_user x) eqn:Hux; [by left|].
           right. apply not_elem_of_cons. split; [|done].
           intros ->. congruence.
        -- intros [Hx|Hx]; [by left|]. right.
           by apply not_elem_of_cons in Hx as [_ ?].
      * intros e' Hne. by rewrite (Hfr e' Hne), Hev.
      * congruence.
    + assert (Hcur1 : events w1 !! e = Some (filter (λ x, x ≠ fn) cur)).
      { rewrite Hev. apply lookup_insert_eq. }
      destruct (IH _ w1 Hcur1) as (w' & Hfor & Hl & Hfr & Hid').
      exists w'. split; [done|]. split; [|split].
      * rewrite Hl, list_filter_filter. f_equal. apply list_filter_iff.
        intros x. split.
        -- intros [[Hx|Hx] Hne]; [by left|]. right.
           apply not_elem_of_cons. by split.
        -- intros [Hx|Hx].
           ++ split; [by left|]. intros ->. rewrite Huser in Hx. done.
           ++ apply not_elem_of_cons in Hx as [? ?]. split; [by right|done].
      * intros e' Hne. rewrite (Hfr e' Hne), Hev. by apply lookup_insert_ne.
      * congruence.
Qed.

(** X10.  What an [emit] leaves behind when the client's functions return
    without calling the emitter, in a registry that only holds client
    functions and the adapters [once] made for them: [emit(e, ...)] on a
    name with listeners returns [true]; afterwards the array of [e] is the
    old one without its adapters, the client functions in their old order;
    every other name has what it had, and no adapter was allocated. *)
Theorem emit_removes_fired_adapters fuel d e args w ls :
  (∀ f a, plain (body f a)) →
  well_formed (events w) →
  events w !! e = Some ls → ls ≠ [] →
  2 ≤ fuel →
  ∃ w', emit (invoke body fuel d) e args w = Done true w'
        ∧ events w' !! e = Some (filter (λ h, is_user h) ls)
        ∧ (∀ e', e ≠ e' → events w' !! e' = events w !! e')
        ∧ next_id w' = next_id w
        ∧ calls_at d (new_entries w w') = (λ h, Entry d h args) <$> ls.
Proof.
  intros Hp Hwf Hl Hne Hfuel.
  destruct (forEach_plain fuel d e args ls Hp (Hwf e ls Hl) Hfuel ls w Hl)
    as (w' & Hfor & Hev & Hfr & Hid).
  exists w'. split; [|split; [|split; [|split]]]; try done.
  - rewrite emit_cases, Hl. destruct ls as [|fn rest]; [done|].
    unfold bind. by rewrite Hfor.
  - rewrite Hev. f_equal. apply filter_iff_in. intros x Hx. split.
    + intros [?|Hnot]; [done|]. by destruct Hnot.
    + intros ?. by left.
  - by eapply forEach_calls_done.
Qed.

End Firing.

(** * Beyond the claims: the adapter while its listener runs *)

Section Reentry.
Context {value store : Type}.
Variable body : nat → list value → prog value store.
Implicit Types (w : world value store) (h : handle) (ls : list handle).
Implicit Types (apply : handle → list value → M value store unit).

(** X13.  The adapter is still registered while the listener it wraps
    runs.  After [once(e, f)] on an emitter with no listener for [e], if
    the code of [f] for [args] starts with [emit(e, args')], then every
    [emit(e, args)] that comes to an end, returning or throwing, has
    called the adapter and [f] with [args] and, from inside that call, the
    same adapter and [f] again with [args']. *)
Theorem once_adapter_reentered fuel e f args args' k w w1 w2 :
  listeners_of (events w) e = [] →
  once e (User f) w = Done tt w1 →
  body f args = Do (CallEmit e args') k →
  final (emit_call body fuel e args w1) = Some w2 →
  ∃ rest,
    new_entries w1 w2 =
      Entry 0 (OnceWrapper (next_id w) e (User f)) args
      :: Entry 1 (User f) args
      :: Entry 2 (OnceWrapper (next_id w) e (User f)) args'
      :: Entry 3 (User f) args'
      :: rest.
Proof.
  intros Hl Honce Hbody Hfin.
  apply once_done in Honce. rewrite Hl in Honce. simpl in Honce.
  assert (Hw1 : events w1 !! e = Some [OnceWrapper (next_id w) e (User f)]).
  { subst w1. simpl. by rewrite lookup_insert_eq. }
  unfold emit_call in Hfin. rewrite emit_cases, Hw1 in Hfin.
  assert (E2 : ∃ wz, final (forEach (λ fn, invoke body fuel 0 fn args)
                              [OnceWrapper (next_id w) e (User f)] w1) = Some wz
                     ∧ log w2 = log wz).
  { apply bind_final in Hfin as [(a & wz & Hm & Hk)|(x & Hm)].
    - simpl in Hk. simplify_eq. exists w2. by rewrite Hm.
    - exists w2. by rewrite Hm. }
  destruct E2 as (wz & Hfor & Hlog). clear Hfin.
  simpl in Hfor.
  assert (E3 : ∃ wy, final (invoke body fuel 0 (OnceWrapper (next_id w) e (User f))
                              args w1) = Some wy ∧ log wz = log wy).
  { apply bind_final in Hfor as [(a & wy & Hm & Hk)|(x & Hm)].
    - simpl in Hk. simplify_eq. exists wz. by rewrite Hm.
    - exists wz. by rewrite Hm. }
  destruct E3 as (wy & Hinv & Hlog'). clear Hfor.
  destruct fuel as [|fuel]; [done|]. rewrite invoke_wrapper in Hinv.
  set (W := OnceWrapper (next_id w) e (User f)) in *.
  set (wa := record (Entry 0 W args) w1) in *.
  assert (E4 : ∃ wx, final (invoke body fuel 1 (User f) args wa) = Some wx
                     ∧ log wy = log wx).
  { apply bind_final in Hinv as [(a & wx & Hm & Hk)|(x & Hm)].
    - apply off_log in Hk. exists wx. by rewrite Hm.
    - exists wy. by rewrite Hm. }
  destruct E4 as (wx & Hf & Hlog''). clear Hinv.
  destruct fuel as [|fuel]; [done|]. rewrite invoke_user, Hbody in Hf.
  set (wb := record (Entry 1 (User f) args) wa) in *.
  simpl in Hf.
  assert (Hwb : events wb !! e = Some [W]) by done.
  assert (E5 : ∃ wc, final (invoke body fuel 2 W args' wb) = Some wc
                     ∧ extends 2 wc wx).
  { unfold bind in Hf.
    destruct (emit (invoke body fuel 2) e args' wb) as [b wc|x wc|] eqn:Hemit;
      simpl in Hf; [| |done].
    - assert (Hrun : extends 2 wc wx).
      { eapply (run_extends 2 (invoke body fuel 2)); [apply invoke_logs_from|].
        exact Hf. }
      rewrite emit_cases, Hwb in Hemit. simpl in Hemit. unfold bind in Hemit.
      destruct (invoke body fuel 2 W args' wb) as [[] wd|y wd|] eqn:Hw; [|done|done].
      simpl in Hemit. unfold ret in Hemit. simplify_eq. by exists wc.
    - assert (Hrun : extends 2 wc wx).
      { eapply (run_extends 2 (invoke body fuel 2)); [apply invoke_logs_from|].
        exact Hf. }
      rewrite emit_cases, Hwb in Hemit. simpl in Hemit. unfold bind in Hemit.
      destruct (invoke body fuel 2 W args' wb) as [[] wd|y wd|] eqn:Hw; [done| |done].
      simplify_eq. by exists wc. }
  destruct E5 as (wc & Hinner & (more & Hmore & _)).
  apply invoke_wrapper_log in Hinner as (n & Hn).
  exists (n ++ more). apply new_entries_app.
  rewrite Hlog, Hlog', Hlog'', Hmore, Hn. simpl.
  rewrite <- !app_assoc. done.
Qed.

End Reentry.

(** * The claim about [off] with the function that [once] wrapped *)

Section OffOriginal.
Context {value store : Type}.
Variable body : nat → list value → prog value store.
Implicit Types (w : world value store) (h : handle) (ls : list handle).

(** C8.  [once(e, f)] puts its adapter, not [f], at the end of the array
    of [e].  Whenever an adapter for [f] is registered under [e], whatever
    was called since [once], [off(e, f)] with the function itself returns
    and removes the plain registrations of [f] but not the adapter.  The
    next [emit(e, args)] then calls the adapter and, through it, [f] with
    [args]: it returns [true] with those calls when the client's functions
    return without calling the emitter; it does so when the listeners of
    [e] return; and every [emit(e, args)] that returns has made them. *)
Theorem once_survives_off_original fuel d e f id args w :
  (∀ w0, once e (User f) w0 = Done tt w →
         listeners_of (events w) e
         = listeners_of (events w0) e ++ [OnceWrapper (next_id w0) e (User f)])
  ∧ (OnceWrapper id e (User f) ∈ listeners_of (events w) e →
     ∃ w2, off e (Some (User f)) w = Done tt w2
       ∧ listeners_of (events w2) e
         = filter (λ fn, fn ≠ User f) (listeners_of (events w) e)
       ∧ OnceWrapper id e (User f) ∈ listeners_of (events w2) e
       ∧ ((∀ g a, plain (body g a)) → well_formed (events w) → 2 ≤ fuel →
          ∃ w3, emit (invoke body fuel d) e args w2 = Done true w3
                ∧ calls_at d (new_entries w2 w3)
                  = (λ h, Entry d h args) <$> listeners_of (events w2) e
                ∧ Entry d (OnceWrapper id e (User f)) args ∈ new_entries w2 w3
                ∧ Entry (S d) (User f) args ∈ new_entries w2 w3)
       ∧ ((∀ h w0, h ∈ listeners_of (events w2) e →
                   ∃ w0', invoke body fuel d h args w0 = Done tt w0') →
          ∃ w3, emit (invoke body fuel d) e args w2 = Done true w3
                ∧ Entry d (OnceWrapper id e (User f)) args ∈ new_entries w2 w3
                ∧ Entry (S d) (User f) args ∈ new_entries w2 w3)
       ∧ (∀ b w3, emit (invoke body fuel d) e args w2 = Done b w3 →
            b = true
            ∧ Entry d (OnceWrapper id e (User f)) args ∈ new_entries w2 w3
            ∧ Entry (S d) (User f) args ∈ new_entries w2 w3)).
Proof.
  split.
  { intros w0 Honce. apply once_done in Honce. subst w. simpl.
    apply listeners_of_insert. }
  intros Hin.
  assert (Hsome : ∃ ls, events w !! e = Some ls).
  { unfold listeners_of in Hin. destruct (events w !! e) as [ls|]; [by exists ls|].
    by apply elem_of_nil in Hin. }
  destruct Hsome as (ls & Hl). rewrite (listeners_of_Some _ _ _ Hl) in *.
  pose proof (off_listener_own e (User f) w ls Hl) as Hoff.
  set (w2 := set_events (<[e := filter (λ fn, fn ≠ User f) ls]> (events w)) w) in *.
  assert (Hl2 : events w2 !! e = Some (filter (λ fn, fn ≠ User f) ls)).
  { unfold w2. simpl. apply lookup_insert_eq. }
  assert (Hw2 : listeners_of (events w2) e = filter (λ fn, fn ≠ User f) ls)
    by (by apply listeners_of_Some).
  assert (Hin2 : OnceWrapper id e (User f) ∈ listeners_of (events w2) e).
  { rewrite Hw2. apply list_elem_of_filter. by split. }
  assert (Hne : listeners_of (events w2) e ≠ []).
  { intros Hnil. rewrite Hnil in Hin2. by apply elem_of_nil in Hin2. }
  exists w2. split; [exact Hoff|]. split; [exact Hw2|]. split; [exact Hin2|].
  split; [|split].
  - intros Hplain Hwf Hfuel.
    assert (Hwf2 : well_formed (events w2)).
    { apply (off_well_formed e (Some (User f)) w w2 Hwf). by rewrite Hoff. }
    destruct (forEach_plain body fuel d e args _ Hplain (Hwf2 e _ Hl2) Hfuel _ w2 Hl2)
      as (w3 & Hfor & _).
    assert (Hemit : emit (invoke body fuel d) e args w2 = Done true w3).
    { rewrite emit_cases, Hl2. rewrite Hw2 in Hne.
      destruct (filter (λ fn, fn ≠ User f) ls) as [|fn rest]; [done|].
      unfold bind. by rewrite Hfor. }
    exists w3. split; [exact Hemit|]. split; [by eapply emit_calls|].
    by eapply emit_runs_wrapped.
  - intros Hret.
    destruct (emit_returns_true body fuel d e args w2 _ eq_refl Hne Hret)
      as (w3 & Hemit).
    exists w3. split; [done|]. by eapply emit_runs_wrapped.
  - intros b w3 Hemit. split; [|by eapply emit_runs_wrapped].
    apply emit_done_inv in Hemit as [(_ & _ & Hnil)|(-> & _)]; done.
Qed.

End OffOriginal.

(** * The further theorems at work on the scenarios *)

Section MoreWitnesses.
Import Scenario.

Lemma on_then_emit_witness :
  on "z" (User 1) one_on_z
  = Done tt (World {[ "z"%string := [User 0; User 1] ]} 0 tt [])
  ∧ ∃ w2, emit (invoke idle 1 0) "z" [4%Z]
               (World {[ "z"%string := [User 0; User 1] ]} 0 tt []) = Done true w2
          ∧ calls_at 0 (new_entries
                          (World {[ "z"%string := [User 0; User 1] ]} 0 tt []) w2)
            = [Entry 0 (User 0) [4%Z]; Entry 0 (User 1) [4%Z]].
Proof.
  split; [reflexivity|].
  apply (on_then_emit idle 1 0 "z" (User 1) [4%Z] one_on_z _ eq_refl).
  intros h' w0 Hin.
  apply elem_of_cons in Hin as [->|Hin]; [eexists; reflexivity|].
  apply elem_of_cons in Hin as [->|Hin]; [eexists; reflexivity|].
  by apply elem_of_nil in Hin.
Defined.

Lemma off_removes_every_occurrence_witness :
  ∃ w' ls', off "x" (Some (User 0)) f0_twice_on_x = Done tt w'
    ∧ events w' !! "x" = Some ls'
    ∧ (User 0 ∉ ls')
    ∧ ls' `sublist_of` [User 0; User 1; User 0]
    ∧ (∀ g, g ≠ User 0 → filter (λ fn, fn = g) ls'
                          = filter (λ fn, fn = g) [User 0; User 1; User 0])
    ∧ log w' = log f0_twice_on_x.
Proof.
  exact (off_removes_every_occurrence "x" (User 0) f0_twice_on_x
           [User 0; User 1; User 0] eq_refl).
Defined.

Lemma off_then_emit_witness :
  calls_at 0 (new_entries
                (World {[ "x"%string := [User 1] ]} 0 tt [])
                (World {[ "x"%string := [User 1] ]} 0 tt [Entry 0 (User 1) [4%Z]]))
  = [Entry 0 (User 1) [4%Z]]
  ∧ ∀ a, Entry 0 (User 0) a
         ∉ new_entries
             (World {[ "x"%string := [User 1] ]} 0 tt [])
             (World {[ "x"%string := [User 1] ]} 0 tt [Entry 0 (User 1) [4%Z]]).
Proof.
  exact (off_then_emit idle 1 0 "x" (User 0) [4%Z] f0_twice_on_x
           [User 0; User 1; User 0]
           (World {[ "x"%string := [User 1] ]} 0 tt []) true
           (World {[ "x"%string := [User 1] ]} 0 tt [Entry 0 (User 1) [4%Z]])
           eq_refl eq_refl eq_refl).
Defined.

Lemma off_idempotent_witness :
  off "z" (Some (User 0)) one_on_z = Done tt emptied_z
  ∧ off "z" (Some (User 0)) emptied_z = Done tt emptied_z.
Proof.
  split; [reflexivity|].
  exact (off_idempotent "z" (Some (User 0)) one_on_z emptied_z eq_refl).
Defined.

Lemma on_off_round_trip_witness :
  ∃ w2, off "z" (Some (User 1))
            (World {[ "z"%string := [User 0; User 1] ]} 0 tt []) = Done tt w2
        ∧ (∀ e', listeners_of (events w2) e' = listeners_of (events one_on_z) e')
        ∧ (is_Some (events one_on_z !! "z") → w2 = one_on_z)
        ∧ (events one_on_z !! "z" = None
           → events w2 = <["z"%string := []]> (events one_on_z)).
Proof.
  apply (on_off_round_trip "z" (User 1) one_on_z
           (World {[ "z"%string := [User 0; User 1] ]} 0 tt []) eq_refl).
  intros Hin. apply elem_of_cons in Hin as [Heq|Hin]; [discriminate|].
  by apply elem_of_nil in Hin.
Defined.

Lemma inherited_name_behaviour_witness :
  on "constructor" (User 0) fresh = Failed TypeError fresh
  ∧ once "constructor" (User 0) fresh = Failed TypeError (World ∅ 1 tt [])
  ∧ off "constructor" (Some (User 0)) fresh = Failed TypeError fresh
  ∧ off "constructor" None fresh = Done tt fresh
  ∧ emit (invoke idle 1 0) "constructor" [] fresh = Failed TypeError fresh.
Proof.
  exact (inherited_name_behaviour "constructor" (PFunction 1) (User 0)
           (invoke idle 1 0) [] fresh eq_refl eq_refl).
Defined.

Lemma clean_two_on_x : clean (events two_on_x).
Proof.
  intros e p Hp. unfold two_on_x, events. apply lookup_singleton_ne.
  intros <-. discriminate Hp.
Qed.

Lemma registry_never_shadows_prototype_witness :
  clean (events two_on_x)
  ∧ ∃ w', final (emit_call idle 1 "x" [] two_on_x) = Some w' ∧ clean (events w').
Proof.
  split; [exact clean_two_on_x|].
  eexists. split; [reflexivity|].
  apply (proj1 (proj2 (proj2 (proj2
           (proj2 (registry_never_shadows_prototype idle 1 "x" (User 0) None []
                     two_on_x) clean_two_on_x))))).
  reflexivity.
Defined.

Lemma well_formed_a_and_b : well_formed (events a_and_b).
Proof.
  intros e ls H. unfold a_and_b, events in H.
  apply lookup_insert_Some in H as [[<- <-]|[_ H]].
  { apply Forall_cons. split; [exact I|].
    apply Forall_cons. split; [|apply Forall_nil_2].
    split; [reflexivity|]. eexists. reflexivity. }
  apply lookup_singleton_Some in H as [<- <-].
  apply Forall_cons. split; [exact I|apply Forall_nil_2].
Qed.

Lemma registry_stays_well_formed_witness :
  well_formed (events a_and_b)
  ∧ ∃ w', final (emit_call idle 2 "a" [] a_and_b) = Some w' ∧ well_formed (events w').
Proof.
  split; [exact well_formed_a_and_b|].
  eexists. split; [reflexivity|].
  apply (proj2 (proj2 (proj2
           (proj2 (registry_stays_well_formed idle 2 "a" 0 None [] a_and_b)
              well_formed_a_and_b)))).
  reflexivity.
Defined.


Lemma well_formed_mixed_on_m : well_formed (events mixed_on_m).
Proof.
  intros e ls H. unfold mixed_on_m, events in H.
  apply lookup_singleton_Some in H as [<- <-].
  repeat (apply Forall_cons; split);
    try exact I; try (split; [reflexivity|eexists; reflexivity]).
  apply Forall_nil_2.
Qed.

Lemma emit_removes_fired_adapters_witness :
  ∃ w', emit (invoke idle 2 0) "m" [] mixed_on_m = Done true w'
        ∧ events w' !! "m" = Some [User 0; User 2].
Proof.
  destruct (emit_removes_fired_adapters idle 2 0 "m" [] mixed_on_m
              [User 0; OnceWrapper 0 "m" (User 1); User 2; OnceWrapper 1 "m" (User 0)]
              (λ _ _, plain_Return) well_formed_mixed_on_m eq_refl
              ltac:(discriminate) (le_n 2))
    as (w' & H1 & H2 & _).
  exists w'. split; [exact H1|exact H2].
Defined.

Lemma emit_result_reflects_listeners_witness :
  emit (invoke idle 1 0) "z" [] emptied_z = Done false emptied_z.
Proof.
  exact (proj1 (emit_result_reflects_listeners (invoke idle 1 0) "z" [] emptied_z)
           eq_refl (or_intror (ex_intro _ [] eq_refl))).
Defined.

Lemma off_all_discards_witness :
  ∃ w', off "x" None two_on_x = Done tt w'
    ∧ events w' !! "x" = None
    ∧ (∀ e', "x"%string ≠ e' → events w' !! e' = events two_on_x !! e')
    ∧ emit (invoke idle 1 0) "x" [] w' = Done false w'
    ∧ ∃ w'', on "x" (User 3) w' = Done tt w'' ∧ events w'' !! "x" = Some [User 3].
Proof.
  exact (off_all_discards "x" (User 3) (invoke idle 1 0) [] two_on_x eq_refl).
Defined.

Lemma once_adapter_reentered_witness :
  ∃ rest, new_entries once_on_e fired_twice =
    Entry 0 (OnceWrapper 0 "e" (User 0)) [1%Z]
    :: Entry 1 (User 0) [1%Z]
    :: Entry 2 (OnceWrapper 0 "e" (User 0)) [0%Z]
    :: Entry 3 (User 0) [0%Z]
    :: rest.
Proof.
  exact (once_adapter_reentered reentrant 4 "e" 0 [1%Z] [0%Z] (rethrow Return)
           fresh once_on_e fired_twice eq_refl eq_refl eq_refl eq_refl).
Defined.

(** [on('z', f0); once('z', f0); off('z', f0); emit('z', 9)]: the adapter
    is still there and the emit calls it, and [f0] through it. *)
Lemma once_survives_off_original_witness :
  once "z" (User 0) one_on_z = Done tt on_and_once_z
  ∧ off "z" (Some (User 0)) on_and_once_z
    = Done tt (World {[ "z"%string := [OnceWrapper 0 "z" (User 0)] ]} 1 tt [])
  ∧ emit (invoke idle 2 0) "z" [9%Z]
         (World {[ "z"%string := [OnceWrapper 0 "z" (User 0)] ]} 1 tt [])
    = Done true
        (World {[ "z"%string := [] ]} 1 tt
               [Entry 0 (OnceWrapper 0 "z" (User 0)) [9%Z]; Entry 1 (User 0) [9%Z]])
  ∧ ∃ w3, emit (invoke idle 2 0) "z" [9%Z]
               (World {[ "z"%string := [OnceWrapper 0 "z" (User 0)] ]} 1 tt [])
          = Done true w3
          ∧ Entry 0 (OnceWrapper 0 "z" (User 0)) [9%Z]
            ∈ new_entries
                (World {[ "z"%string := [OnceWrapper 0 "z" (User 0)] ]} 1 tt []) w3
          ∧ Entry 1 (User 0) [9%Z]
            ∈ new_entries
                (World {[ "z"%string := [OnceWrapper 0 "z" (User 0)] ]} 1 tt []) w3.
Proof.
  split; [reflexivity|]. split; [reflexivity|]. split; [reflexivity|].
  assert (Hin : OnceWrapper 0 "z" (User 0) ∈ listeners_of (events on_and_once_z) "z").
  { apply elem_of_cons. right. apply elem_of_cons. by left. }
  assert (Hwf : well_formed (events on_and_once_z)).
  { intros e ls H. unfold on_and_once_z, events in H.
    apply lookup_singleton_Some in H as [<- <-].
    apply Forall_cons. split; [exact I|].
    apply Forall_cons. split; [|apply Forall_nil_2].
    split; [reflexivity|]. eexists. reflexivity. }
  destruct (proj2 (once_survives_off_original idle 2 0 "z" 0 0 [9%Z] on_and_once_z) Hin)
    as (w2 & Hoff & _ & _ & Htotal & _).
  assert (Hw2 : w2 = World {[ "z"%string := [OnceWrapper 0 "z" (User 0)] ]} 1 tt []).
  { symmetry. exact (f_equal (λ r, match r with Done _ w' => w' | _ => w2 end) Hoff). }
  destruct (Htotal (λ _ _, plain_Return) Hwf (le_n 2)) as (w3 & Hemit & _ & H0 & H1).
  rewrite Hw2 in Hemit, H0, H1.
  exists w3. split; [exact Hemit|]. split; [exact H0|exact H1].
Defined.

End MoreWitnesses.
